(** * iOS-Appium-Path-Extractor: the capture script and the extraction script

    A shallow embedding of the two Python scripts of the repository,

    - [save_app_pages.py]: fingerprints the page source of the running
      application and keeps one file per fingerprint never seen before;
    - [extract_paths.py]: for every element of every saved page source,
      computes an absolute XPath, iOS class chain candidates and a
      classification, and collects the unique interactive elements;

    and the properties their specification states about them.

    Python [str] values are modelled as [string]: the sequence of the
    bytes of their UTF-8 encoding. *)

From Stdlib Require Import String Ascii List Arith Lia.
From stdpp Require Import base decidable option list gmap strings pretty.

Set Warnings "-register-all,-clear-no-such-hyp,-notation-for-abbreviation".
Local Open Scope string_scope.
Local Open Scope list_scope.

(** ** Python values shared by both scripts *)

(** What a call does: it returns, it raises, or (in the model only) the
    bound on the iterations of a [while] loop was too small. *)
Inductive outcome (A : Type) : Type :=
| Returned (a : A)
| Raised (exn : string)
| OutOfFuel.
Arguments Returned {A} a.
Arguments Raised {A} exn.
Arguments OutOfFuel {A}.

(** [str.lower()]. On the bytes of a UTF-8 string this lowers the ASCII
    letters only; no character outside ASCII lowers to one of the letters
    of ["true"] or [".xml"], the only strings a lowered string is compared
    with in the scripts. *)
Definition ascii_lower (c : ascii) : ascii :=
  let n := nat_of_ascii c in
  if Nat.leb 65 n && Nat.leb n 90 then ascii_of_nat (n + 32) else c.

Fixpoint lower (s : string) : string :=
  match s with
  | EmptyString => EmptyString
  | String c s' => String (ascii_lower c) (lower s')
  end.

(** The truth value of a Python string: the empty string is false. *)
Definition truthy (s : string) : bool := negb (String.eqb s "").

(** ["sep".join(parts)] *)
Fixpoint join (sep : string) (parts : list string) : string :=
  match parts with
  | [] => ""
  | [p] => p
  | p :: rest => p +:+ sep +:+ join sep rest
  end.

(** ** save_app_pages.py *)

Module SaveAppPages.

(** An [xml.etree.ElementTree.Element] as the serializer sees it: the
    attribute dictionary keeps its insertion order, which [ET.tostring]
    follows, so it is an association list here (one binding per key). *)
Inductive Element : Type :=
  mkElement (tag : string) (attrib : list (string * string))
            (text tail : option string) (children : list Element).

Definition tag (e : Element) : string :=
  match e with mkElement t _ _ _ _ => t end.
Definition attrib (e : Element) : list (string * string) :=
  match e with mkElement _ a _ _ _ => a end.
Definition children (e : Element) : list Element :=
  match e with mkElement _ _ _ _ cs => cs end.

(** [key in d] and [del d[key]] on a dictionary. *)
Definition dict_contains (key : string) (d : list (string * string)) : bool :=
  existsb (fun kv => String.eqb (fst kv) key) d.

Fixpoint dict_del (key : string) (d : list (string * string))
  : list (string * string) :=
  match d with
  | [] => []
  | (k, v) :: d' =>
      if String.eqb k key then dict_del key d' else (k, v) :: dict_del key d'
  end.

(** The loop [for elem in root.iter(): if 'value' in elem.attrib:
    del elem.attrib['value']], as the tree it leaves behind. *)
Fixpoint remove_value (e : Element) : Element :=
  match e with
  | mkElement t a tx tl cs =>
      mkElement t
        (if dict_contains "value" a then dict_del "value" a else a)
        tx tl (map remove_value cs)
  end.

(** [page_source.encode()]: the UTF-8 bytes, which the model's strings
    already are. *)
Definition encode (s : string) : string := s.

Section Fingerprint.

(** The library functions the script calls: [ET.fromstring] ([None] when it
    raises [ET.ParseError]), [ET.tostring(_, encoding='utf-8')] and
    [hashlib.md5(_).hexdigest()]. *)
Variable fromstring : string -> option Element.
Variable tostring : Element -> string.
Variable md5_hexdigest : string -> string.

Definition compute_filtered_hash (page_source : string) : string :=
  match fromstring page_source with
  | None => md5_hexdigest (encode page_source)
  | Some root =>
      let filtered_source := tostring (remove_value root) in
      md5_hexdigest filtered_source
  end.

End Fingerprint.

(** The test [current_filtered_hash not in saved_hashes] and the insertion
    that follows it; the boolean tells which branch ran. *)
Definition observe (saved_hashes : gset string) (h : string)
  : bool * gset string :=
  if decide (h ∉ saved_hashes)
  then (true, {[h]} ∪ saved_hashes)
  else (false, saved_hashes).

(** The state of the capture loop and one iteration of it in the tracked
    application: a new fingerprint is recorded, the counter advances and the
    raw page source is written to [page_<n>.xml]. *)
Record capture_state : Type := mkCapture {
  saved_hashes : gset string;
  page_count : nat;
  written : list (string * string)
}.

Definition capture_init : capture_state := mkCapture ∅ 0 [].

Definition capture_page (current_filtered_hash page_source : string)
    (st : capture_state) : bool * capture_state :=
  let '(novel, saved) := observe (saved_hashes st) current_filtered_hash in
  if novel then
    let n := S (page_count st) in
    (true, mkCapture saved n
             (written st ++ [("page_" +:+ pretty n +:+ ".xml", page_source)]))
  else (false, st).

(** Feeding a sequence of fingerprints to the store, oldest first. *)
Fixpoint observe_all (saved_hashes : gset string) (hs : list string)
  : list bool * gset string :=
  match hs with
  | [] => ([], saved_hashes)
  | h :: hs' =>
      let '(b, saved) := observe saved_hashes h in
      let '(bs, final) := observe_all saved hs' in
      (b :: bs, final)
  end.

(** Two attribute dictionaries that are the same once the bindings of
    [value] are left out of both. *)
Inductive attrib_sim : list (string * string) -> list (string * string) -> Prop :=
| sim_nil : attrib_sim [] []
| sim_keep k v a1 a2 :
    attrib_sim a1 a2 -> attrib_sim ((k, v) :: a1) ((k, v) :: a2)
| sim_value_l v a1 a2 :
    attrib_sim a1 a2 -> attrib_sim (("value", v) :: a1) a2
| sim_value_r v a1 a2 :
    attrib_sim a1 a2 -> attrib_sim a1 (("value", v) :: a2).

(** Two trees that are identical except for the [value] attribute of some
    of their nodes. *)
Inductive tree_sim : Element -> Element -> Prop :=
| sim_node t a1 a2 tx tl cs1 cs2 :
    attrib_sim a1 a2 ->
    Forall2 tree_sim cs1 cs2 ->
    tree_sim (mkElement t a1 tx tl cs1) (mkElement t a2 tx tl cs2).

(** A small serializer, a parser that knows two page sources and a digest
    that keeps its input, to run the fingerprint on. *)
Fixpoint sample_tostring (e : Element) : string :=
  match e with
  | mkElement t a tx tl cs =>
      "<" +:+ t
      +:+ join "" (map (fun kv => " " +:+ fst kv +:+ "='" +:+ snd kv +:+ "'") a)
      +:+ ">" +:+ default "" tx
      +:+ join "" (map sample_tostring cs)
      +:+ "</" +:+ t +:+ ">" +:+ default "" tl
  end.

Definition sample_page (typed : string) : Element :=
  mkElement "App" [("name", "demo")] None None
    [mkElement "Field" [("name", "user"); ("value", typed)] None None [];
     mkElement "Button" [("label", "OK")] None None []].

Definition sample_fromstring (page_source : string) : option Element :=
  if String.eqb page_source "page with a" then Some (sample_page "a")
  else if String.eqb page_source "page with ab" then Some (sample_page "ab")
  else None.

Definition sample_digest (bytes : string) : string := bytes.

(** [root.iter()] on the trees of this script. *)
Fixpoint iter (e : Element) : list Element :=
  match e with
  | mkElement _ _ _ _ cs => e :: flat_map iter cs
  end.

Section Capture.

(** The capture loop, for the polls it has made so far. Each poll has the
    [bundleId] that [mobile: activeAppInfo] reports and the page source the
    driver would give. *)
Variable fromstring : string -> option Element.
Variable tostring : Element -> string.
Variable md5_hexdigest : string -> string.
Variable APP_BUNDLE_ID : string.

Definition poll : Type := (string * string)%type.

Definition capture_step (st : capture_state) (p : poll) : capture_state :=
  let '(current_app, page_source) := p in
  if String.eqb current_app APP_BUNDLE_ID then
    let current_filtered_hash :=
      compute_filtered_hash fromstring tostring md5_hexdigest page_source in
    snd (capture_page current_filtered_hash page_source st)
  else st.

Definition capture_loop (polls : list poll) : capture_state :=
  foldl capture_step capture_init polls.

End Capture.

(** The name of the [n]-th file the loop writes. *)
Definition page_filename (n : nat) : string := "page_" +:+ pretty n +:+ ".xml".

End SaveAppPages.

(** ** extract_paths.py *)

Module ExtractPaths.

(** An [xml.etree.ElementTree.Element]. The class defines no [__eq__], so
    [==], [in] and [list.index] compare elements by identity: [eid] stands
    for the identity of the object, and is the only thing [elem_is] reads. *)
Inductive Element : Type :=
  mkElement (eid : nat) (tag : string) (attrib : gmap string string)
            (children : list Element).

Definition eid (e : Element) : nat :=
  match e with mkElement i _ _ _ => i end.
Definition tag (e : Element) : string :=
  match e with mkElement _ t _ _ => t end.
Definition attrib (e : Element) : gmap string string :=
  match e with mkElement _ _ a _ => a end.
Definition children (e : Element) : list Element :=
  match e with mkElement _ _ _ cs => cs end.

(** [a == b] on elements *)
Definition elem_is (a b : Element) : bool := Nat.eqb (eid a) (eid b).

(** [root.iter()]: the element and its descendants in document order *)
Fixpoint iter (e : Element) : list Element :=
  match e with
  | mkElement _ _ _ cs => e :: flat_map iter cs
  end.

(** [d.get(key)], [d.get(key, default)] and [key in d] *)
Definition dict_get (d : gmap string string) (key : string) : option string :=
  d !! key.
Definition dict_get_default (d : gmap string string) (key dflt : string)
  : string :=
  default dflt (d !! key).
Definition dict_in (key : string) (d : gmap string string) : bool :=
  bool_decide (is_Some (d !! key)).

(** The truth value of [d.get(key)]: [None] and the empty string are false. *)
Definition opt_truthy (o : option string) : bool :=
  match o with
  | None => false
  | Some s => truthy s
  end.

(** The string an f-string puts in place of [{x}] when [x] is known to be a
    string ([None] is never formatted: every use is guarded by a truth
    test). *)
Definition fmt (o : option string) : string := default "None" o.

Definition INTERACTIVE_TAGS : gset string :=
  {[ "XCUIElementTypeButton";
     "XCUIElementTypeLink";
     "XCUIElementTypeCell";
     "XCUIElementTypeStaticText";
     "XCUIElementTypeMenuItem";
     "XCUIElementTypeCheckBox";
     "XCUIElementTypeSwitch" ]}.

Definition classify_element (elem : Element) : string :=
  let tag := tag elem in
  let enabled :=
    String.eqb (lower (dict_get_default (attrib elem) "enabled" "")) "true" in
  let visible :=
    String.eqb (lower (dict_get_default (attrib elem) "visible" "")) "true" in
  let enabled := if negb (dict_in "enabled" (attrib elem)) then true else enabled in
  let visible := if negb (dict_in "visible" (attrib elem)) then true else visible in
  if bool_decide (tag ∈ INTERACTIVE_TAGS) && enabled && visible
  then "Interactive"
  else "Non-Interactive".

Definition unique_key : Type :=
  string * string * string * string * string * string * string * string.

Definition create_unique_key (elem : Element) : unique_key :=
  (tag elem,
   dict_get_default (attrib elem) "name" "",
   dict_get_default (attrib elem) "label" "",
   dict_get_default (attrib elem) "value" "",
   dict_get_default (attrib elem) "x" "",
   dict_get_default (attrib elem) "y" "",
   dict_get_default (attrib elem) "width" "",
   dict_get_default (attrib elem) "height" "").

Definition newline : string := String (ascii_of_nat 10) "".

Definition build_interactive_line (elem : Element) (xpath : string)
    (ios_class_chain_candidates : list string) : string :=
  let name := dict_get_default (attrib elem) "name" "" in
  let label := dict_get_default (attrib elem) "label" "" in
  let value := dict_get_default (attrib elem) "value" "" in
  let x := dict_get_default (attrib elem) "x" "" in
  let y := dict_get_default (attrib elem) "y" "" in
  let w := dict_get_default (attrib elem) "width" "" in
  let h := dict_get_default (attrib elem) "height" "" in
  let lines :=
    [ "Tag: " +:+ tag elem;
      "name='" +:+ name +:+ "', label='" +:+ label +:+ "', value='" +:+ value +:+ "'";
      "Position: x=" +:+ x +:+ ", y=" +:+ y +:+ ", width=" +:+ w +:+ ", height=" +:+ h;
      "Absolute XPath: " +:+ xpath ] in
  let lines :=
    match ios_class_chain_candidates with
    | [] => lines
    | _ :: _ =>
        lines ++ ["iOS Class Chain Candidates:"]
              ++ map (fun candidate => "  - " +:+ candidate)
                     ios_class_chain_candidates
    end in
  join newline lines.

(** [child in list(elem)] *)
Definition is_child_of (child elem : Element) : bool :=
  existsb (fun e => elem_is e child) (children elem).

Definition find_parent (root child : Element) : option Element :=
  find (is_child_of child) (iter root).

(** [siblings.index(current)]; [None] stands for the [ValueError] of an
    element that is not in the list. *)
Fixpoint list_index (current : Element) (siblings : list Element)
  : option nat :=
  match siblings with
  | [] => None
  | e :: rest =>
      if elem_is e current then Some 0 else S <$> list_index current rest
  end.

(** The [while] loop of [get_xpath]. An [ElementTree] element has no
    [getparent], so the parent is always found by [find_parent]. *)
Fixpoint xpath_loop (fuel : nat) (root current : Element)
    (segments : list string) : outcome (list string) :=
  if elem_is current root then Returned segments
  else
    match fuel with
    | O => OutOfFuel
    | S fuel' =>
        match find_parent root current with
        | None => Returned segments
        | Some parent =>
            let siblings :=
              filter (fun e => tag e = tag current) (children parent) in
            match list_index current siblings with
            | None => Raised "ValueError"
            | Some i =>
                let index := i + 1 in
                xpath_loop fuel' root parent
                  (segments ++ ["/" +:+ tag current +:+ "[" +:+ pretty index +:+ "]"])
            end
        end
    end.

(** The loop climbs one level at each turn, so it is given as many turns as
    the tree has elements. *)
Definition get_xpath (element root : Element) : outcome string :=
  if elem_is element root then Returned ("/" +:+ tag root)
  else
    match xpath_loop (length (iter root)) root element [] with
    | Returned segments => Returned (join "" (rev segments))
    | Raised exn => Raised exn
    | OutOfFuel => OutOfFuel
    end.

Definition get_ios_class_chain_candidates (elem : Element) : list string :=
  let candidates := [] in
  let tag := tag elem in
  let name := dict_get (attrib elem) "name" in
  let label := dict_get (attrib elem) "label" in
  let value := dict_get (attrib elem) "value" in
  let candidates :=
    if opt_truthy name
    then candidates ++ ["**/" +:+ tag +:+ "[@name='" +:+ fmt name +:+ "']"]
    else candidates in
  let candidates :=
    if opt_truthy label
       && (negb (opt_truthy name) || negb (bool_decide (label = name)))
    then candidates ++ ["**/" +:+ tag +:+ "[@label='" +:+ fmt label +:+ "']"]
    else candidates in
  let candidates :=
    if opt_truthy value
    then candidates ++ ["**/" +:+ tag +:+ "[@value='" +:+ fmt value +:+ "']"]
    else candidates in
  let candidates :=
    if opt_truthy name && opt_truthy label
    then candidates ++ ["**/" +:+ tag +:+ "[@name='" +:+ fmt name
                          +:+ "' and @label='" +:+ fmt label +:+ "']"]
    else candidates in
  candidates.

(** [s.endswith(suffix)] *)
Definition endswith (s suffix : string) : bool :=
  let n := String.length s in
  let m := String.length suffix in
  Nat.leb m n && String.eqb (substring (n - m) m s) suffix.

(** The two accumulators of [main] that outlive a file. The report written
    for each file is built from the same per-element values and read by
    nothing else, so it is left out. *)
Record master_state : Type := mkMaster {
  master_interactive_set : gset unique_key;
  master_interactive_items : list string
}.

(** The body of the loop [for elem in root.iter()]. An exception of
    [get_xpath] is caught nowhere and ends the run. *)
Definition process_elem (root : Element) (st : master_state) (elem : Element)
  : outcome master_state :=
  match get_xpath elem root with
  | Returned xpath =>
      let ios_class_chain_candidates := get_ios_class_chain_candidates elem in
      let classification := classify_element elem in
      if String.eqb classification "Interactive" then
        let unique_key := create_unique_key elem in
        if decide (unique_key ∉ master_interactive_set st) then
          let master_line :=
            build_interactive_line elem xpath ios_class_chain_candidates in
          Returned (mkMaster ({[unique_key]} ∪ master_interactive_set st)
                             (master_interactive_items st ++ [master_line]))
        else Returned st
      else Returned st
  | Raised exn => Raised exn
  | OutOfFuel => OutOfFuel
  end.

Fixpoint process_elems (root : Element) (st : master_state)
    (elems : list Element) : outcome master_state :=
  match elems with
  | [] => Returned st
  | elem :: rest =>
      match process_elem root st elem with
      | Returned st' => process_elems root st' rest
      | Raised exn => Raised exn
      | OutOfFuel => OutOfFuel
      end
  end.

(** One entry of [os.listdir(INPUT_FOLDER)]: the file name and what
    [ET.parse] makes of the file, [None] when it raises. *)
Definition input_file : Type := (string * option Element)%type.

Definition process_file (st : master_state) (file : input_file)
  : outcome master_state :=
  let '(filename, parsed) := file in
  if negb (endswith (lower filename) ".xml") then Returned st
  else
    match parsed with
    | None => Returned st
    | Some root => process_elems root st (iter root)
    end.

Fixpoint process_files (st : master_state) (files : list input_file)
  : outcome master_state :=
  match files with
  | [] => Returned st
  | file :: rest =>
      match process_file st file with
      | Returned st' => process_files st' rest
      | Raised exn => Raised exn
      | OutOfFuel => OutOfFuel
      end
  end.

(** [main], up to the master catalog it writes at the end. *)
Definition main (files : list input_file) : outcome (list string) :=
  match process_files (mkMaster ∅ []) files with
  | Returned st => Returned (master_interactive_items st)
  | Raised exn => Raised exn
  | OutOfFuel => OutOfFuel
  end.

(** *** The vocabulary of the specification *)

(** A string that is ["true"] up to the case of its four letters. *)
Definition is_true_nocase (s : string) : Prop :=
  exists c1 c2 c3 c4 : ascii,
    s = String c1 (String c2 (String c3 (String c4 EmptyString)))
    /\ (c1 = "t" \/ c1 = "T")%char
    /\ (c2 = "r" \/ c2 = "R")%char
    /\ (c3 = "u" \/ c3 = "U")%char
    /\ (c4 = "e" \/ c4 = "E")%char.

(** An attribute that is true or absent. *)
Definition true_or_absent (o : option string) : Prop :=
  o = None \/ exists s, o = Some s /\ is_true_nocase s.

(** The template of a candidate: [**/<tag>[@<key>='<value>']], the
    conditions joined with [ and ]. *)
Definition selector (tag : string) (conds : list (string * string)) : string :=
  "**/" +:+ tag +:+ "["
  +:+ join " and "
        (map (fun kv => "@" +:+ fst kv +:+ "='" +:+ snd kv +:+ "'") conds)
  +:+ "]".

(** A generation rule emits its candidate or nothing. *)
Definition rule (fires : bool) (candidate : string) : list string :=
  if fires then [candidate] else [].

(** An attribute that is there with at least one character. *)
Definition nonempty (o : option string) : bool :=
  match o with
  | Some (String _ _) => true
  | _ => false
  end.

Definition is_absent (o : option string) : bool :=
  match o with
  | None => true
  | Some _ => false
  end.

(** The four rules of the specification, in their order, an attribute
    counting as present when it is non-empty. *)
Definition candidates_by_rules (elem : Element) : list string :=
  let name := attrib elem !! "name" in
  let label := attrib elem !! "label" in
  let value := attrib elem !! "value" in
  rule (nonempty name) (selector (tag elem) [("name", default "" name)])
  ++ rule (nonempty label
           && (is_absent name || negb (bool_decide (label = name))))
          (selector (tag elem) [("label", default "" label)])
  ++ rule (nonempty value) (selector (tag elem) [("value", default "" value)])
  ++ rule (nonempty name && nonempty label)
          (selector (tag elem)
             [("name", default "" name); ("label", default "" label)]).

(** The same element with another attribute dictionary. *)
Definition with_attrib (elem : Element) (a : gmap string string) : Element :=
  mkElement (eid elem) (tag elem) a (children elem).

(** The element reached from [root] by taking, at each level, the child
    at the given position. *)
Fixpoint descend (root : Element) (path : list nat) : option Element :=
  match path with
  | [] => Some root
  | i :: path' =>
      match children root !! i with
      | Some child => descend child path'
      | None => None
      end
  end.

(** The 1-based rank of the child at position [i] among the children of
    [parent] that have its tag. *)
Definition sibling_rank (parent : Element) (i : nat) (child : Element) : nat :=
  S (length (filter (fun e => tag e = tag child) (take i (children parent)))).

(** The segments [/tag[k]] of the elements met below [root] along a path. *)
Fixpoint path_segments (root : Element) (path : list nat) : list string :=
  match path with
  | [] => []
  | i :: path' =>
      match children root !! i with
      | Some child =>
          ("/" +:+ tag child +:+ "[" +:+ pretty (sibling_rank root i child) +:+ "]")
            :: path_segments child path'
      | None => []
      end
  end.

(** Distinct elements of a tree are distinct objects. *)
Definition distinct_objects (root : Element) : Prop :=
  NoDup (eid <$> iter root).


(** The elements that [main] visits, each with the root of its file, in
    the order of the visits: the files whose name ends in [.xml] and that
    parse, and in each the elements in document order. *)
Definition visited_of_file (file : input_file) : list (Element * Element) :=
  let '(filename, parsed) := file in
  if endswith (lower filename) ".xml" then
    match parsed with
    | Some root => map (pair root) (iter root)
    | None => []
    end
  else [].

Definition visited (files : list input_file) : list (Element * Element) :=
  flat_map visited_of_file files.

Definition interactive (files : list input_file) : list (Element * Element) :=
  filter (fun p => classify_element p.2 = "Interactive") (visited files).

Definition key_of (p : Element * Element) : unique_key :=
  create_unique_key p.2.

(** The string of the path of an element, empty when there is none. *)
Definition xpath_text (element root : Element) : string :=
  match get_xpath element root with
  | Returned xpath => xpath
  | _ => ""
  end.

(** The entry of the master catalog for an element of a file. *)
Definition master_line (p : Element * Element) : string :=
  build_interactive_line p.2 (xpath_text p.2 p.1)
    (get_ios_class_chain_candidates p.2).

(** Of the elements that have the same key, the first one only. *)
Fixpoint first_seen (l : list (Element * Element)) : list (Element * Element) :=
  match l with
  | [] => []
  | p :: l' => p :: filter (fun q => key_of q <> key_of p) (first_seen l')
  end.

(** Every file that parses gives a tree of distinct objects. *)
Definition parsed_trees (files : list input_file) : Prop :=
  forall filename root,
    (filename, Some root) ∈ files -> distinct_objects root.

(** What the body of the loop does to the accumulators once the path of
    the element is known. *)
Definition absorb (st : master_state) (p : Element * Element) : master_state :=
  if decide (classify_element p.2 = "Interactive") then
    if decide (key_of p ∉ master_interactive_set st) then
      mkMaster ({[key_of p]} ∪ master_interactive_set st)
               (master_interactive_items st ++ [master_line p])
    else st
  else st.

(** Two page sources with the same button, the second one with an empty
    [x], and a file that does not parse. *)
Definition page_one : Element :=
  mkElement 0 "XCUIElementTypeApplication" ∅
    [mkElement 1 "XCUIElementTypeButton" (<["name" := "Login"]> ∅) []].
Definition page_two : Element :=
  mkElement 0 "XCUIElementTypeApplication" ∅
    [mkElement 1 "XCUIElementTypeButton"
       (<["x" := ""]> (<["name" := "Login"]> ∅)) []].
Definition two_pages : list input_file :=
  [("page_1.xml", Some page_one); ("broken.xml", None);
   ("page_2.XML", Some page_two)].

(** A button that says nothing about its state. *)
Definition button_plain : Element :=
  mkElement 1 "XCUIElementTypeButton" ∅ [].

(** An element whose [name] is empty, beside a [label] and a [value]. *)
Definition node_empty_name : Element :=
  mkElement 0 "Btn"
    (<["name" := ""]> (<["label" := "OK"]> (<["value" := "1"]> ∅))) [].

(** *** The report of a file *)

Definition get_position_summary (elem : Element) : string :=
  let x := dict_get (attrib elem) "x" in
  let y := dict_get (attrib elem) "y" in
  let w := dict_get (attrib elem) "width" in
  let h := dict_get (attrib elem) "height" in
  let position_attrs := [] in
  let position_attrs :=
    if is_absent x then position_attrs
    else position_attrs ++ ["x=" +:+ fmt x] in
  let position_attrs :=
    if is_absent y then position_attrs
    else position_attrs ++ ["y=" +:+ fmt y] in
  let position_attrs :=
    if is_absent w then position_attrs
    else position_attrs ++ ["width=" +:+ fmt w] in
  let position_attrs :=
    if is_absent h then position_attrs
    else position_attrs ++ ["height=" +:+ fmt h] in
  match position_attrs with
  | [] => ""
  | _ :: _ => join ", " position_attrs
  end.

Definition get_attributes_summary (elem : Element) : string :=
  let attrs :=
    foldl (fun attrs key =>
             let val := dict_get (attrib elem) key in
             if opt_truthy val
             then attrs ++ [key +:+ "='" +:+ fmt val +:+ "'"]
             else attrs)
          [] ["name"; "label"; "value"; "enabled"; "visible"] in
  join ", " attrs.

(** ["-" * 80] *)
Fixpoint string_repeat (s : string) (n : nat) : string :=
  match n with
  | O => ""
  | S n' => s +:+ string_repeat s n'
  end.

(** The block of the report for one element. *)
Definition element_block (root elem : Element) : outcome string :=
  match get_xpath elem root with
  | Returned xpath =>
      let ios_class_chain_candidates := get_ios_class_chain_candidates elem in
      let attr_summary := get_attributes_summary elem in
      let position_summary := get_position_summary elem in
      let classification := classify_element elem in
      let line_parts :=
        ["Tag: " +:+ tag elem; "Attributes: " +:+ attr_summary] in
      let line_parts :=
        if truthy position_summary
        then line_parts ++ ["Position: " +:+ position_summary]
        else line_parts in
      let line_parts := line_parts ++ ["Classification: " +:+ classification] in
      let line_parts := line_parts ++ ["Absolute XPath: " +:+ xpath] in
      let line_parts :=
        match ios_class_chain_candidates with
        | [] => line_parts
        | _ :: _ =>
            line_parts ++ ["iOS Class Chain Candidates:"]
              ++ map (fun candidate => "  - " +:+ candidate)
                     ios_class_chain_candidates
        end in
      Returned (join newline line_parts)
  | Raised exn => Raised exn
  | OutOfFuel => OutOfFuel
  end.

(** The list [lines] that [main] builds for a file, after the header: a
    block and a rule of 80 dashes for each element. *)
Fixpoint report_blocks (root : Element) (elems : list Element)
  : outcome (list string) :=
  match elems with
  | [] => Returned []
  | elem :: rest =>
      match element_block root elem with
      | Returned block =>
          match report_blocks root rest with
          | Returned lines => Returned (block :: string_repeat "-" 80 :: lines)
          | Raised exn => Raised exn
          | OutOfFuel => OutOfFuel
          end
      | Raised exn => Raised exn
      | OutOfFuel => OutOfFuel
      end
  end.

Definition file_report (filename : string) (root : Element)
  : outcome (list string) :=
  match report_blocks root (iter root) with
  | Returned lines =>
      Returned (("=== Locators for " +:+ filename +:+ " ===" +:+ newline)
                  :: lines)
  | Raised exn => Raised exn
  | OutOfFuel => OutOfFuel
  end.

(** The text written to [master_interactive.txt]. *)
Definition master_file_text (master_interactive_items : list string) : string :=
  "=== MASTER LIST OF UNIQUE INTERACTIVE ELEMENTS ===" +:+ newline +:+ newline
  +:+ join "" (map (fun item => item +:+ newline +:+ newline)
                   master_interactive_items).

(** A tree of three levels and an element with a position. *)
Definition tree_deep : Element :=
  mkElement 0 "App" ∅
    [mkElement 1 "Window" ∅
       [mkElement 2 "Button" ∅ [];
        mkElement 3 "Other" ∅ [];
        mkElement 4 "Button" ∅ []]].
Definition node_positioned : Element :=
  mkElement 5 "XCUIElementTypeButton"
    (<["x" := ""]> (<["name" := "Go"]> ∅)) [].

(** The tree [root(A, A, B)] and an element that is in no tree. *)
Definition node_A1 : Element := mkElement 1 "A" ∅ [].
Definition node_A2 : Element := mkElement 2 "A" ∅ [].
Definition node_B : Element := mkElement 3 "B" ∅ [].
Definition tree_AAB : Element :=
  mkElement 0 "root" ∅ [node_A1; node_A2; node_B].

End ExtractPaths.

(** * Properties of save_app_pages.py *)

Section CaptureProperties.
Import SaveAppPages.

Lemma dict_del_absent key d :
  dict_contains key d = false -> dict_del key d = d.
Proof.
  induction d as [|[k v] d IH]; simpl; [reflexivity|].
  intros H. apply orb_false_iff in H as [Hk Hd].
  rewrite Hk. f_equal. auto.
Qed.

Lemma remove_value_attrib a :
  (if dict_contains "value" a then dict_del "value" a else a)
  = dict_del "value" a.
Proof.
  destruct (dict_contains "value" a) eqn:E; [reflexivity|].
  symmetry. now apply dict_del_absent.
Qed.

Lemma dict_del_sim a1 a2 :
  attrib_sim a1 a2 -> dict_del "value" a1 = dict_del "value" a2.
Proof.
  induction 1 as [|k v a1 a2 _ IH|v a1 a2 _ IH|v a1 a2 _ IH]; simpl.
  - reflexivity.
  - destruct (String.eqb k "value"); [assumption | now f_equal].
  - assumption.
  - assumption.
Qed.

Lemma remove_value_sim :
  forall t1 t2, tree_sim t1 t2 -> remove_value t1 = remove_value t2.
Proof.
  fix IH 3. intros t1 t2 H.
  destruct H as [t a1 a2 tx tl cs1 cs2 Ha Hcs]. simpl.
  rewrite !remove_value_attrib, (dict_del_sim _ _ Ha).
  f_equal.
  revert cs1 cs2 Hcs. fix IHcs 3. intros cs1 cs2 Hcs.
  destruct Hcs as [|c1 c2 cs1 cs2 Hc Hcs]; simpl.
  - reflexivity.
  - f_equal; [apply IH, Hc | apply IHcs, Hcs].
Qed.

(** C2: two page sources whose trees are identical except for the [value]
    attribute of some nodes (different strings, or present in one tree and
    absent in the other) have the same filtered hash, whatever the parser,
    the serializer and the digest are. *)
Theorem filtered_hash_ignores_value
    (fromstring : string -> option Element) (tostring : Element -> string)
    (md5_hexdigest : string -> string) (source1 source2 : string)
    (root1 root2 : Element) :
  fromstring source1 = Some root1 ->
  fromstring source2 = Some root2 ->
  tree_sim root1 root2 ->
  compute_filtered_hash fromstring tostring md5_hexdigest source1
  = compute_filtered_hash fromstring tostring md5_hexdigest source2.
Proof.
  intros H1 H2 Hsim. unfold compute_filtered_hash.
  rewrite H1, H2. cbn zeta.
  now rewrite (remove_value_sim _ _ Hsim).
Qed.

Lemma sample_pages_sim : tree_sim (sample_page "a") (sample_page "ab").
Proof.
  unfold sample_page. constructor.
  - apply sim_keep, sim_nil.
  - repeat constructor.
Qed.

Lemma filtered_hash_ignores_value_witness :
  compute_filtered_hash sample_fromstring sample_tostring sample_digest
    "page with a"
  = compute_filtered_hash sample_fromstring sample_tostring sample_digest
    "page with ab".
Proof.
  apply (filtered_hash_ignores_value sample_fromstring sample_tostring
           sample_digest "page with a" "page with ab"
           (sample_page "a") (sample_page "ab")).
  - reflexivity.
  - reflexivity.
  - exact sample_pages_sim.
Defined.



Lemma observe_absent (saved : gset string) (h : string) :
  h ∉ saved -> observe saved h = (true, {[h]} ∪ saved).
Proof. intros H. unfold observe. now rewrite decide_True. Qed.

Lemma observe_present (saved : gset string) (h : string) :
  h ∈ saved -> observe saved h = (false, saved).
Proof. intros H. unfold observe. rewrite decide_False; [reflexivity | tauto]. Qed.

(** The answers to a sequence of fingerprints, from any store: an answer is
    [True] when the fingerprint is neither in the store nor earlier in the
    sequence; the store ends with the fingerprints of the sequence added,
    and has grown by one for each [True]. *)
Lemma observe_all_from (hs : list string) :
  forall saved : gset string,
    length (observe_all saved hs).1 = length hs
    /\ (forall i h, hs !! i = Some h ->
          (observe_all saved hs).1 !! i
          = Some (bool_decide ((h ∉ saved) /\ (h ∉ take i hs))))
    /\ (observe_all saved hs).2 = saved ∪ list_to_set hs
    /\ size (observe_all saved hs).2
       = size saved + length (filter (fun b => b = true) (observe_all saved hs).1).
Proof.
  induction hs as [|h hs IH]; intros saved.
  - simpl. repeat split.
    + intros i h. rewrite lookup_nil. discriminate.
    + set_solver.
    + lia.
  - simpl. destruct (decide (h ∈ saved)) as [Hin|Hout].
    + rewrite (observe_present _ _ Hin).
      destruct (IH saved) as (IHlen & IHnth & IHset & IHsize).
      destruct (observe_all saved hs) as [bs final] eqn:E. simpl in *.
      repeat split.
      * now rewrite IHlen.
      * intros [|i] h' Hi; simpl in *.
        -- injection Hi as <-. f_equal. symmetry.
           apply bool_decide_eq_false. tauto.
        -- rewrite (IHnth _ _ Hi). f_equal. apply bool_decide_ext.
           split; [intros [? ?]; split; [assumption|]|intros [? ?%not_elem_of_cons]; tauto].
           apply not_elem_of_cons. split; [congruence | assumption].
      * rewrite IHset. set_solver.
      * exact IHsize.
    + rewrite (observe_absent _ _ Hout).
      destruct (IH ({[h]} ∪ saved)) as (IHlen & IHnth & IHset & IHsize).
      destruct (observe_all ({[h]} ∪ saved) hs) as [bs final] eqn:E.
      simpl in *. repeat split.
      * now rewrite IHlen.
      * intros [|i] h' Hi; simpl in *.
        -- injection Hi as <-. f_equal. symmetry.
           apply bool_decide_eq_true. split; [assumption | apply not_elem_of_nil].
        -- rewrite (IHnth _ _ Hi). f_equal. apply bool_decide_ext.
           rewrite not_elem_of_cons, not_elem_of_union, not_elem_of_singleton.
           tauto.
      * rewrite IHset. set_solver.
      * rewrite IHsize, size_union, size_singleton; [lia | set_solver].
Qed.

(** C3: a fingerprint that is absent is inserted and answered [True], one
    that is present leaves the store as it is and is answered [False]; over a
    sequence fed to the empty store, the answer at a position is [True]
    exactly when the fingerprint does not occur before that position, and
    the number of [True] answers is the number of distinct fingerprints. *)
Theorem observe_first_occurrence (saved : gset string) (h : string)
    (hs : list string) :
  (h ∉ saved -> observe saved h = (true, {[h]} ∪ saved))
  /\ (h ∈ saved -> observe saved h = (false, saved))
  /\ length (observe_all ∅ hs).1 = length hs
  /\ (forall i x, hs !! i = Some x ->
        (observe_all ∅ hs).1 !! i = Some (bool_decide (x ∉ take i hs)))
  /\ (observe_all ∅ hs).2 = list_to_set hs
  /\ length (filter (fun b => b = true) (observe_all ∅ hs).1)
     = size (list_to_set hs : gset string).
Proof.
  destruct (observe_all_from hs ∅) as (Hlen & Hnth & Hset & Hsize).
  split; [apply observe_absent|].
  split; [apply observe_present|].
  split; [exact Hlen|].
  split.
  - intros i x Hi. rewrite (Hnth _ _ Hi). f_equal. apply bool_decide_ext.
    split; [tauto | split; [apply not_elem_of_empty | assumption]].
  - split.
    + rewrite Hset. set_solver.
    + rewrite Hset, size_empty in Hsize. simpl in Hsize.
      rewrite <- Hsize. f_equal. set_solver.
Qed.

Lemma observe_first_occurrence_witness :
  observe {["h1"]} "h2" = (true, {["h2"]} ∪ {["h1"]})
  /\ observe {["h1"]} "h1" = (false, {["h1"]})
  /\ (observe_all ∅ ["h1"; "h2"; "h1"]).1 = [true; true; false].
Proof.
  destruct (observe_first_occurrence {["h1"]} "h2" ["h1"; "h2"; "h1"])
    as (Habsent & _).
  destruct (observe_first_occurrence {["h1"]} "h1" ["h1"; "h2"; "h1"])
    as (_ & Hpresent & _).
  split; [apply Habsent; set_solver|].
  split; [apply Hpresent; set_solver|].
  vm_compute. reflexivity.
Defined.

End CaptureProperties.

(** * Properties of extract_paths.py *)

Section ElementProperties.
Import ExtractPaths.

(** ** The classifier *)

Ltac lower_letter c :=
  destruct c as [[] [] [] [] [] [] [] []]; vm_compute;
  (split; [intros H; first [discriminate H | left; reflexivity | right; reflexivity]
          | intros [H|H]; first [discriminate H | reflexivity]]).

Lemma lower_t c : ascii_lower c = "t"%char <-> (c = "t" \/ c = "T")%char.
Proof. lower_letter c. Qed.
Lemma lower_r c : ascii_lower c = "r"%char <-> (c = "r" \/ c = "R")%char.
Proof. lower_letter c. Qed.
Lemma lower_u c : ascii_lower c = "u"%char <-> (c = "u" \/ c = "U")%char.
Proof. lower_letter c. Qed.
Lemma lower_e c : ascii_lower c = "e"%char <-> (c = "e" \/ c = "E")%char.
Proof. lower_letter c. Qed.

Lemma lower_true s : String.eqb (lower s) "true" = true <-> is_true_nocase s.
Proof.
  rewrite String.eqb_eq. split.
  - intros H.
    destruct s as [|c1 [|c2 [|c3 [|c4 [|c5 s]]]]]; simpl in H; try discriminate H.
    injection H as H1 H2 H3 H4.
    exists c1, c2, c3, c4. split; [reflexivity|].
    rewrite <- lower_t, <- lower_r, <- lower_u, <- lower_e. tauto.
  - intros (c1 & c2 & c3 & c4 & -> & H1 & H2 & H3 & H4). simpl.
    apply lower_t in H1. apply lower_r in H2.
    apply lower_u in H3. apply lower_e in H4. congruence.
Qed.

(** The flag [classify_element] computes for [enabled] and for [visible]. *)
Lemma state_flag (a : gmap string string) (key : string) :
  (if negb (dict_in key a) then true
   else String.eqb (lower (dict_get_default a key "")) "true") = true
  <-> true_or_absent (a !! key).
Proof.
  unfold dict_in, dict_get_default, true_or_absent.
  destruct (a !! key) as [s|] eqn:E; simpl.
  - rewrite lower_true. split.
    + intros H. right. eauto.
    + intros [H|(s' & H & Hs)]; [discriminate H | congruence].
  - tauto.
Qed.

Lemma classify_element_cases elem :
  classify_element elem
  = if bool_decide (tag elem ∈ INTERACTIVE_TAGS)
       && (if negb (dict_in "enabled" (attrib elem)) then true
           else String.eqb (lower (dict_get_default (attrib elem) "enabled" "")) "true")
       && (if negb (dict_in "visible" (attrib elem)) then true
           else String.eqb (lower (dict_get_default (attrib elem) "visible" "")) "true")
    then "Interactive" else "Non-Interactive".
Proof. reflexivity. Qed.

(** C5: an element is classified [Interactive] exactly when its tag is one
    of [INTERACTIVE_TAGS] and each of [enabled] and [visible] is absent or
    ["true"] up to case, and [Non-Interactive] otherwise; so an element with
    such a tag and neither attribute is [Interactive], and becomes
    [Non-Interactive] once [enabled] is ["false"]. *)
Theorem classify_element_iff (elem : Element) :
  (classify_element elem = "Interactive"
   <-> tag elem ∈ INTERACTIVE_TAGS
       /\ true_or_absent (attrib elem !! "enabled")
       /\ true_or_absent (attrib elem !! "visible"))
  /\ (classify_element elem <> "Interactive"
      <-> classify_element elem = "Non-Interactive")
  /\ (tag elem ∈ INTERACTIVE_TAGS ->
      attrib elem !! "enabled" = None ->
      attrib elem !! "visible" = None ->
      classify_element elem = "Interactive"
      /\ classify_element
           (with_attrib elem (<["enabled" := "false"]> (attrib elem)))
         = "Non-Interactive").
Proof.
  assert (Hiff : forall e, classify_element e = "Interactive"
                 <-> tag e ∈ INTERACTIVE_TAGS
                     /\ true_or_absent (attrib e !! "enabled")
                     /\ true_or_absent (attrib e !! "visible")).
  { intros e. rewrite classify_element_cases.
    pose proof (state_flag (attrib e) "enabled") as Hen.
    pose proof (state_flag (attrib e) "visible") as Hvis.
    destruct (bool_decide_reflect (tag e ∈ INTERACTIVE_TAGS)) as [Htag|Htag];
      destruct (if negb (dict_in "enabled" (attrib e)) then true else _);
      destruct (if negb (dict_in "visible" (attrib e)) then true else _);
      simpl; split;
      try (intros H; discriminate H);
      try (intros (H1 & H2 & H3));
      try tauto;
      try (apply Hen in H2; discriminate H2);
      try (apply Hvis in H3; discriminate H3). }
  assert (Htwo : forall e, classify_element e <> "Interactive"
                 <-> classify_element e = "Non-Interactive").
  { intros e. rewrite classify_element_cases.
    destruct (_ && _ && _); split; (congruence || discriminate). }
  split; [apply Hiff|]. split; [apply Htwo|].
  intros Htag Hen Hvis. split.
  - apply Hiff. unfold true_or_absent. tauto.
  - apply Htwo. rewrite Hiff. intros (_ & Hfalse & _).
    simpl in Hfalse. rewrite lookup_insert_eq in Hfalse.
    destruct Hfalse as [H|(s & H & Hs)]; [discriminate H|].
    injection H as <-.
    destruct Hs as (c1 & c2 & c3 & c4 & Hs & _). discriminate Hs.
Qed.

Lemma classify_element_iff_witness :
  classify_element button_plain = "Interactive"
  /\ classify_element
       (with_attrib button_plain (<["enabled" := "false"]> (attrib button_plain)))
     = "Non-Interactive".
Proof.
  destruct (classify_element_iff button_plain) as (_ & _ & Hdefault).
  apply Hdefault.
  - unfold INTERACTIVE_TAGS. simpl. set_solver.
  - reflexivity.
  - reflexivity.
Defined.

(** ** The candidates *)

Lemma append_nil (s : string) : "" +:+ s = s.
Proof. reflexivity. Qed.

Lemma append_cons (c : ascii) (s t : string) :
  String c s +:+ t = String c (s +:+ t).
Proof. reflexivity. Qed.

Lemma append_assoc (s t u : string) : (s +:+ t) +:+ u = s +:+ t +:+ u.
Proof.
  induction s as [|c s IH]; [reflexivity|].
  rewrite !append_cons. now f_equal.
Qed.

Lemma append_empty (s : string) : s +:+ "" = s.
Proof.
  induction s as [|c s IH]; [reflexivity|].
  rewrite append_cons. now f_equal.
Qed.

Ltac string_norm :=
  rewrite ?append_assoc, ?append_cons, ?append_nil, ?append_empty.

Lemma candidates_eq_rules (elem : Element) :
  get_ios_class_chain_candidates elem = candidates_by_rules elem.
Proof.
  unfold get_ios_class_chain_candidates, candidates_by_rules, dict_get,
    selector, rule.
  destruct (attrib elem !! "name") as [[|c1 n]|];
    destruct (attrib elem !! "label") as [[|c2 l]|];
    destruct (attrib elem !! "value") as [[|c3 v]|];
    simpl;
    try destruct (bool_decide _);
    simpl; string_norm; reflexivity.
Qed.

(** C6: the candidates are those of the four rules, in their order: by
    [name]; by [label], only when [name] is absent or differs from [label];
    by [value]; by [name] and [label] together. Each rule emits one
    candidate of the form [**/<tag>[@<key>='<value>']] or none. With tag
    [Btn], [name] ["a"] and [label] ["a"], the candidates are the one by
    name and the compound one. *)
Theorem candidates_follow_rules (elem : Element) :
  get_ios_class_chain_candidates elem = candidates_by_rules elem
  /\ length (get_ios_class_chain_candidates elem) <= 4
  /\ forall (i : nat) (cs : list Element),
       get_ios_class_chain_candidates
         (mkElement i "Btn" (<["name" := "a"]> (<["label" := "a"]> ∅)) cs)
       = ["**/Btn[@name='a']"; "**/Btn[@name='a' and @label='a']"].
Proof.
  split; [apply candidates_eq_rules|]. split.
  - rewrite candidates_eq_rules. unfold candidates_by_rules, rule.
    rewrite !length_app.
    repeat match goal with |- context [if ?b then _ else _] => destruct b end;
      simpl; lia.
  - intros i cs. reflexivity.
Qed.

Lemma candidates_unfold (elem : Element) :
  get_ios_class_chain_candidates elem
  = let name := attrib elem !! "name" in
    let label := attrib elem !! "label" in
    let value := attrib elem !! "value" in
    (if opt_truthy name
     then ["**/" +:+ tag elem +:+ "[@name='" +:+ fmt name +:+ "']"] else [])
    ++ (if opt_truthy label
           && (negb (opt_truthy name) || negb (bool_decide (label = name)))
        then ["**/" +:+ tag elem +:+ "[@label='" +:+ fmt label +:+ "']"] else [])
    ++ (if opt_truthy value
        then ["**/" +:+ tag elem +:+ "[@value='" +:+ fmt value +:+ "']"] else [])
    ++ (if opt_truthy name && opt_truthy label
        then ["**/" +:+ tag elem +:+ "[@name='" +:+ fmt name
                +:+ "' and @label='" +:+ fmt label +:+ "']"] else []).
Proof.
  unfold get_ios_class_chain_candidates, dict_get. cbv zeta.
  destruct (opt_truthy (attrib elem !! "name"));
    destruct (opt_truthy (attrib elem !! "label"));
    destruct (opt_truthy (attrib elem !! "value"));
    simpl; try destruct (bool_decide _); reflexivity.
Qed.

(** C9: an attribute that is the empty string counts as an attribute that
    is not there. Deleting an empty [name], [label] or [value] changes no
    candidate; an element on which each of the three is absent or empty has
    no candidate; and with an empty [name] the candidates are those of the
    label rule and of the value rule alone. *)
Theorem candidates_empty_as_absent (elem : Element) :
  (forall key : string,
     key ∈ ["name"; "label"; "value"] ->
     attrib elem !! key = Some "" ->
     get_ios_class_chain_candidates elem
     = get_ios_class_chain_candidates
         (with_attrib elem (delete key (attrib elem))))
  /\ ((forall key : string,
         key ∈ ["name"; "label"; "value"] ->
         attrib elem !! key = None \/ attrib elem !! key = Some "") ->
      get_ios_class_chain_candidates elem = [])
  /\ (attrib elem !! "name" = Some "" ->
      get_ios_class_chain_candidates elem
      = rule (nonempty (attrib elem !! "label"))
             (selector (tag elem) [("label", default "" (attrib elem !! "label"))])
        ++ rule (nonempty (attrib elem !! "value"))
             (selector (tag elem) [("value", default "" (attrib elem !! "value"))])).
Proof.
  split; [|split].
  - intros key Hkey Hempty.
    rewrite !candidates_unfold. unfold with_attrib. simpl.
    apply list_elem_of_In in Hkey. simpl in Hkey.
    destruct Hkey as [<-|[<-|[<-|[]]]];
      rewrite lookup_delete_eq, !lookup_delete_ne by discriminate;
      rewrite Hempty; simpl; try reflexivity.
    destruct (opt_truthy (attrib elem !! "name")); reflexivity.
  - intros Hall. rewrite candidates_unfold. cbv zeta.
    assert (Hfalse : forall key, key ∈ ["name"; "label"; "value"] ->
                                 opt_truthy (attrib elem !! key) = false).
    { intros key Hkey. destruct (Hall key Hkey) as [-> | ->]; reflexivity. }
    rewrite !Hfalse by (repeat constructor). reflexivity.
  - intros Hname. rewrite candidates_eq_rules. unfold candidates_by_rules.
    rewrite Hname.
    destruct (attrib elem !! "label") as [[|c l]|]; simpl;
      rewrite ?app_nil_r; reflexivity.
Qed.

Lemma candidates_empty_as_absent_witness :
  get_ios_class_chain_candidates node_empty_name
  = get_ios_class_chain_candidates
      (with_attrib node_empty_name (delete "name" (attrib node_empty_name)))
  /\ get_ios_class_chain_candidates node_empty_name
     = ["**/Btn[@label='OK']"; "**/Btn[@value='1']"]
  /\ get_ios_class_chain_candidates
       (mkElement 0 "Btn" (<["name" := ""]> (<["label" := ""]> ∅)) [])
     = [].
Proof.
  destruct (candidates_empty_as_absent node_empty_name) as (Hdel & _ & Hname).
  destruct (candidates_empty_as_absent
              (mkElement 0 "Btn" (<["name" := ""]> (<["label" := ""]> ∅)) []))
    as (_ & Hnone & _).
  split; [|split].
  - apply Hdel; [repeat constructor | reflexivity].
  - rewrite Hname by reflexivity. reflexivity.
  - apply Hnone. intros key Hkey.
    apply list_elem_of_In in Hkey. simpl in Hkey.
    destruct Hkey as [<-|[<-|[<-|[]]]]; [right | right | left]; reflexivity.
Defined.

End ElementProperties.

Section TreeProperties.
Import ExtractPaths.

Lemma Element_nested_ind (P : Element -> Prop) :
  (forall i t a cs, Forall P cs -> P (mkElement i t a cs)) ->
  forall e, P e.
Proof.
  intros Hnode. fix IH 1. intros [i t a cs]. apply Hnode.
  induction cs as [|c cs IHcs]; constructor; [apply IH | exact IHcs].
Qed.

Lemma iter_unfold e : iter e = e :: flat_map iter (children e).
Proof. destruct e; reflexivity. Qed.

Lemma elem_of_flat_map {A B} (f : A -> list B) (l : list A) (x : B) :
  x ∈ flat_map f l <-> exists a, a ∈ l /\ x ∈ f a.
Proof.
  rewrite list_elem_of_In, in_flat_map.
  split; intros (a & Ha & Hx); exists a;
    rewrite ?list_elem_of_In in *; tauto.
Qed.

Lemma lookup_flat_map {A B} (f : A -> list B) (l : list A) i a (x : B) :
  l !! i = Some a -> x ∈ f a -> x ∈ flat_map f l.
Proof.
  intros Hi Hx. apply elem_of_flat_map. exists a.
  split; [eapply list_elem_of_lookup_2, Hi | exact Hx].
Qed.

Lemma flat_map_NoDup_part {A B C} (g : B -> C) (f : A -> list B)
    (l : list A) i a :
  NoDup (g <$> flat_map f l) -> l !! i = Some a -> NoDup (g <$> f a).
Proof.
  revert i. induction l as [|a0 l IH]; intros i Hnd Hi.
  - rewrite lookup_nil in Hi. discriminate.
  - simpl in Hnd. rewrite fmap_app in Hnd.
    apply NoDup_app in Hnd as (Hhd & _ & Htl).
    destruct i as [|i]; simpl in Hi.
    + now injection Hi as <-.
    + eapply IH; eassumption.
Qed.

Lemma flat_map_NoDup_index {A B C} (g : B -> C) (f : A -> list B)
    (l : list A) i j a b x y :
  NoDup (g <$> flat_map f l) ->
  l !! i = Some a -> l !! j = Some b ->
  x ∈ f a -> y ∈ f b -> g x = g y -> i = j.
Proof.
  revert i j. induction l as [|a0 l IH]; intros i j Hnd Hi Hj Hx Hy Hg.
  - rewrite lookup_nil in Hi. discriminate.
  - simpl in Hnd. rewrite fmap_app in Hnd.
    apply NoDup_app in Hnd as (Hhd & Hsep & Htl).
    destruct i as [|i], j as [|j]; simpl in Hi, Hj.
    + reflexivity.
    + injection Hi as <-. exfalso. apply (Hsep (g x)).
      * apply list_elem_of_fmap_2, Hx.
      * rewrite Hg. eapply list_elem_of_fmap_2, lookup_flat_map; eassumption.
    + injection Hj as <-. exfalso. apply (Hsep (g y)).
      * apply list_elem_of_fmap_2, Hy.
      * rewrite <- Hg. eapply list_elem_of_fmap_2, lookup_flat_map; eassumption.
    + f_equal. eapply IH; eassumption.
Qed.

Lemma length_flat_map_lookup {A B} (f : A -> list B) (l : list A) i a :
  l !! i = Some a -> length (f a) <= length (flat_map f l).
Proof.
  revert i. induction l as [|a0 l IH]; intros i Hi.
  - rewrite lookup_nil in Hi. discriminate.
  - simpl. rewrite length_app. destruct i as [|i]; simpl in Hi.
    + injection Hi as <-. lia.
    + specialize (IH _ Hi). lia.
Qed.

(** *** Positions in a tree *)

Lemma descend_in root path e : descend root path = Some e -> e ∈ iter root.
Proof.
  revert root. induction path as [|i path IH]; intros root H; simpl in H.
  - injection H as <-. rewrite iter_unfold. apply list_elem_of_here.
  - destruct (children root !! i) as [c|] eqn:Hc; [|discriminate].
    rewrite iter_unfold. apply list_elem_of_further.
    eapply lookup_flat_map; eauto.
Qed.

Lemma in_descend root e : e ∈ iter root -> exists path, descend root path = Some e.
Proof.
  revert e. induction root as [i t a cs IH] using Element_nested_ind.
  intros e He. rewrite iter_unfold in He. simpl in He.
  apply elem_of_cons in He as [->|He].
  - exists []. reflexivity.
  - apply elem_of_flat_map in He as (c & Hc & He).
    apply list_elem_of_lookup in Hc as [k Hk].
    rewrite Forall_forall in IH.
    destruct (IH c (list_elem_of_lookup_2 _ _ _ Hk) e He) as [path Hpath].
    exists (k :: path). simpl. now rewrite Hk.
Qed.

Lemma descend_snoc root path i c :
  descend root (path ++ [i]) = Some c
  <-> exists parent, descend root path = Some parent
                     /\ children parent !! i = Some c.
Proof.
  revert root. induction path as [|k path IH]; intros root; simpl.
  - split.
    + intros H. exists root. split; [reflexivity|].
      destruct (children root !! i); [assumption | discriminate].
    + intros (parent & [= <-] & ->). reflexivity.
  - destruct (children root !! k) as [child|]; [apply IH|].
    split; [discriminate | intros (? & H & _); discriminate H].
Qed.

Lemma descend_length root path e :
  descend root path = Some e -> length path < length (iter root).
Proof.
  revert root. induction path as [|i path IH]; intros root H;
    rewrite iter_unfold; simpl in *; [lia|].
  destruct (children root !! i) as [c|] eqn:Hc; [|discriminate].
  specialize (IH _ H).
  pose proof (length_flat_map_lookup iter _ _ _ Hc). lia.
Qed.

Lemma distinct_objects_child root i c :
  distinct_objects root -> children root !! i = Some c -> distinct_objects c.
Proof.
  unfold distinct_objects. rewrite (iter_unfold root). simpl.
  intros Hnd Hc. apply NoDup_cons in Hnd as [_ Hnd].
  eapply flat_map_NoDup_part; eassumption.
Qed.

(** In a tree of distinct objects an object is at one position only. *)
Lemma descend_unique root path1 path2 e1 e2 :
  distinct_objects root ->
  descend root path1 = Some e1 -> descend root path2 = Some e2 ->
  eid e1 = eid e2 -> path1 = path2.
Proof.
  revert root path2.
  induction path1 as [|i path1 IH]; intros root [|j path2] Hnd H1 H2 Heq;
    simpl in H1, H2.
  - reflexivity.
  - exfalso. injection H1 as <-.
    destruct (children root !! j) as [c|] eqn:Hc; [|discriminate].
    unfold distinct_objects in Hnd. rewrite iter_unfold in Hnd. simpl in Hnd.
    apply NoDup_cons in Hnd as [Hnot _]. apply Hnot. rewrite Heq.
    apply list_elem_of_fmap_2. eapply lookup_flat_map; [eassumption|].
    eapply descend_in, H2.
  - exfalso. injection H2 as <-.
    destruct (children root !! i) as [c|] eqn:Hc; [|discriminate].
    unfold distinct_objects in Hnd. rewrite iter_unfold in Hnd. simpl in Hnd.
    apply NoDup_cons in Hnd as [Hnot _]. apply Hnot. rewrite <- Heq.
    apply list_elem_of_fmap_2. eapply lookup_flat_map; [eassumption|].
    eapply descend_in, H1.
  - destruct (children root !! i) as [ci|] eqn:Hci; [|discriminate].
    destruct (children root !! j) as [cj|] eqn:Hcj; [|discriminate].
    assert (i = j) as <-.
    { pose proof Hnd as Hnd'.
      unfold distinct_objects in Hnd'. rewrite iter_unfold in Hnd'.
      simpl in Hnd'. apply NoDup_cons in Hnd' as [_ Hnd'].
      eapply (flat_map_NoDup_index eid iter (children root) i j ci cj e1 e2
                Hnd' Hci Hcj);
        [eapply descend_in, H1 | eapply descend_in, H2 | exact Heq]. }
    rewrite Hci in Hcj. injection Hcj as <-.
    f_equal.
    eapply (IH ci path2 (distinct_objects_child _ _ _ Hnd Hci) H1 H2 Heq).
Qed.

Lemma distinct_objects_descend root path e :
  distinct_objects root -> descend root path = Some e -> distinct_objects e.
Proof.
  revert root. induction path as [|i path IH]; intros root Hnd H; simpl in H.
  - now injection H as <-.
  - destruct (children root !! i) as [c|] eqn:Hc; [|discriminate].
    eapply IH; [eapply distinct_objects_child|]; eassumption.
Qed.

Lemma distinct_objects_children parent :
  distinct_objects parent -> NoDup (eid <$> children parent).
Proof.
  unfold distinct_objects. rewrite iter_unfold. simpl.
  intros Hnd. apply NoDup_cons in Hnd as [_ Hnd]. revert Hnd.
  induction (children parent) as [|c cs IH]; simpl; [constructor|].
  rewrite iter_unfold. simpl. rewrite fmap_app.
  intros Hnd. apply NoDup_cons in Hnd as [Hnot Hnd].
  apply NoDup_app in Hnd as (_ & _ & Hnd).
  apply NoDup_cons. split; [|apply IH, Hnd].
  intros Hin. apply Hnot. apply elem_of_app. right.
  apply list_elem_of_fmap in Hin as (c' & -> & Hin).
  apply list_elem_of_fmap_2. apply elem_of_flat_map.
  exists c'. split; [assumption|]. rewrite iter_unfold. apply list_elem_of_here.
Qed.

Lemma elem_is_refl e : elem_is e e = true.
Proof. apply Nat.eqb_refl. Qed.

Lemma elem_is_eq a b : elem_is a b = true <-> eid a = eid b.
Proof. apply Nat.eqb_eq. Qed.

Lemma is_child_of_spec child elem :
  is_child_of child elem = true
  <-> exists j c, children elem !! j = Some c /\ eid c = eid child.
Proof.
  unfold is_child_of. rewrite existsb_exists. split.
  - intros (c & Hin & Heq). apply list_elem_of_In, list_elem_of_lookup in Hin.
    destruct Hin as [j Hj]. exists j, c. now rewrite <- elem_is_eq.
  - intros (j & c & Hj & Heq). exists c. split.
    + eapply list_elem_of_In, list_elem_of_lookup_2, Hj.
    + now apply elem_is_eq.
Qed.

(** *** find_parent *)

Lemma find_parent_descend root path i child parent :
  distinct_objects root ->
  descend root path = Some parent ->
  children parent !! i = Some child ->
  find_parent root child = Some parent.
Proof.
  intros Hnd Hparent Hchild. unfold find_parent.
  assert (Hpos : descend root (path ++ [i]) = Some child)
    by (apply descend_snoc; eauto).
  destruct (find (is_child_of child) (iter root)) as [x|] eqn:Hfind.
  - apply find_some in Hfind as [Hin Hx].
    apply list_elem_of_In, in_descend in Hin as [px Hpx].
    apply is_child_of_spec in Hx as (j & c & Hj & Heq).
    assert (Hc : descend root (px ++ [j]) = Some c)
      by (apply descend_snoc; eauto).
    pose proof (descend_unique _ _ _ _ _ Hnd Hc Hpos Heq) as Hpaths.
    apply app_inj_tail in Hpaths as [-> _]. congruence.
  - exfalso.
    pose proof (find_none _ _ Hfind parent) as Hno.
    rewrite <- list_elem_of_In in Hno.
    specialize (Hno (descend_in _ _ _ Hparent)).
    assert (is_child_of child parent = true) as Hyes
      by (apply is_child_of_spec; eauto).
    congruence.
Qed.


(** *** The index among the siblings *)

Lemma list_index_rank (siblings : list Element) i current :
  NoDup (eid <$> siblings) ->
  siblings !! i = Some current ->
  list_index current (filter (fun e => tag e = tag current) siblings)
  = Some (length (filter (fun e => tag e = tag current) (take i siblings))).
Proof.
  revert i. induction siblings as [|x l IH]; intros i Hnd Hi.
  - rewrite lookup_nil in Hi. discriminate.
  - simpl in Hnd. apply NoDup_cons in Hnd as [Hx Hnd].
    destruct i as [|i]; simpl in Hi.
    + injection Hi as ->.
      rewrite filter_cons_True by reflexivity. simpl.
      now rewrite elem_is_refl.
    + assert (Hdiff : elem_is x current = false).
      { apply not_true_iff_false. rewrite elem_is_eq. intros Heq.
        apply Hx. rewrite Heq.
        eapply list_elem_of_fmap_2, list_elem_of_lookup_2, Hi. }
      simpl take. destruct (decide (tag x = tag current)) as [Ht|Ht].
      * rewrite !filter_cons_True by assumption. simpl.
        rewrite Hdiff, (IH _ Hnd Hi). reflexivity.
      * rewrite !filter_cons_False by assumption. apply IH; assumption.
Qed.

(** *** get_xpath on the elements of a tree *)

Lemma path_segments_snoc root path i parent child :
  descend root path = Some parent ->
  children parent !! i = Some child ->
  path_segments root (path ++ [i])
  = path_segments root path
    ++ ["/" +:+ tag child +:+ "[" +:+ pretty (sibling_rank parent i child) +:+ "]"].
Proof.
  revert root. induction path as [|k path IH]; intros root Hp Hc; simpl in *.
  - injection Hp as ->. now rewrite Hc.
  - destruct (children root !! k) as [c|]; [|discriminate].
    simpl. f_equal. now apply IH.
Qed.

Lemma elem_is_root_path root path e :
  distinct_objects root -> descend root path = Some e ->
  elem_is e root = true -> path = [].
Proof.
  intros Hnd Hp Heq. apply elem_is_eq in Heq.
  eapply (descend_unique root path [] e root); eauto.
Qed.

(** From an element at [path], with a turn for each level, the loop
    returns the segments of the path, deepest first, after those it was
    given. *)
Lemma xpath_loop_path root :
  distinct_objects root ->
  forall path e fuel segments,
    descend root path = Some e ->
    length path <= fuel ->
    xpath_loop fuel root e segments
    = Returned (segments ++ rev (path_segments root path)).
Proof.
  intros Hnd path.
  induction path as [|i path IH] using rev_ind; intros e fuel segments Hp Hfuel.
  - simpl in Hp. injection Hp as <-.
    destruct fuel; simpl; rewrite elem_is_refl, app_nil_r; reflexivity.
  - pose proof Hp as Hp'.
    apply descend_snoc in Hp' as (parent & Hparent & Hchild).
    assert (Hnot : elem_is e root = false).
    { apply not_true_iff_false. intros Hroot.
      apply (elem_is_root_path _ _ _ Hnd Hp) in Hroot.
      destruct path; discriminate Hroot. }
    rewrite length_app in Hfuel. simpl in Hfuel.
    destruct fuel as [|fuel]; [lia|]. simpl. rewrite Hnot.
    rewrite (find_parent_descend _ _ _ _ _ Hnd Hparent Hchild).
    rewrite (list_index_rank _ _ _
               (distinct_objects_children _
                  (distinct_objects_descend _ _ _ Hnd Hparent)) Hchild).
    rewrite IH by (auto; lia).
    rewrite (path_segments_snoc _ _ _ _ _ Hparent Hchild).
    rewrite rev_app_distr. simpl. rewrite <- app_assoc. simpl.
    unfold sibling_rank. rewrite Nat.add_1_r. reflexivity.
Qed.

(** What [get_xpath] returns for the element at a position of a tree: the
    tag of the root for the root, and for any other element the segments
    of the elements below the root. *)
Lemma get_xpath_descend root path e :
  distinct_objects root -> descend root path = Some e ->
  get_xpath e root
  = Returned (match path with
              | [] => "/" +:+ tag root
              | _ :: _ => join "" (path_segments root path)
              end).
Proof.
  intros Hnd Hp. unfold get_xpath. destruct path as [|i path].
  - simpl in Hp. injection Hp as <-. now rewrite elem_is_refl.
  - destruct (elem_is e root) eqn:Hroot.
    + apply (elem_is_root_path _ _ _ Hnd Hp) in Hroot. discriminate Hroot.
    + rewrite (xpath_loop_path root Hnd (i :: path) e _ [] Hp)
        by (apply Nat.lt_le_incl; eapply descend_length, Hp).
      simpl app. now rewrite rev_involutive.
Qed.

Lemma get_xpath_returns root e :
  distinct_objects root -> e ∈ iter root ->
  exists xpath, get_xpath e root = Returned xpath.
Proof.
  intros Hnd [path Hp]%in_descend.
  rewrite (get_xpath_descend _ _ _ Hnd Hp). eauto.
Qed.

(** C1: on the tree [root(A, A, B)] the path computed for the second [A]
    is [/A[2]] and the one computed for [B] is [/B[1]], where the claim has
    [/root/A[2]] and [/root/B[1]]: the rank among the siblings of the same
    tag is right, the tag of the root is missing. The root itself gets
    [/root]. *)
Theorem get_xpath_omits_root_tag :
  get_xpath node_A2 tree_AAB = Returned "/A[2]"
  /\ get_xpath node_B tree_AAB = Returned "/B[1]"
  /\ get_xpath tree_AAB tree_AAB = Returned "/root"
  /\ get_xpath node_A2 tree_AAB <> Returned "/root/A[2]"
  /\ get_xpath node_B tree_AAB <> Returned "/root/B[1]".
Proof.
  assert (HA : get_xpath node_A2 tree_AAB = Returned "/A[2]")
    by (vm_compute; reflexivity).
  assert (HB : get_xpath node_B tree_AAB = Returned "/B[1]")
    by (vm_compute; reflexivity).
  split; [exact HA|]. split; [exact HB|].
  split; [vm_compute; reflexivity|].
  rewrite HA, HB. split; discriminate.
Qed.




End TreeProperties.

Section CatalogProperties.
Import ExtractPaths.

Lemma process_elem_absorb root st elem xpath :
  get_xpath elem root = Returned xpath ->
  process_elem root st elem = Returned (absorb st (root, elem)).
Proof.
  intros Hx. unfold process_elem, absorb, master_line, key_of, xpath_text.
  cbn [fst snd]. rewrite Hx.
  destruct (String.eqb_spec (classify_element elem) "Interactive") as [Hc|Hc];
    destruct (decide (classify_element elem = "Interactive"));
    try contradiction; [|reflexivity].
  destruct (decide (create_unique_key elem ∉ master_interactive_set st));
    reflexivity.
Qed.

Lemma process_elems_absorb root elems :
  (forall e, e ∈ elems -> exists xpath, get_xpath e root = Returned xpath) ->
  forall st,
    process_elems root st elems
    = Returned (foldl absorb st (map (pair root) elems)).
Proof.
  induction elems as [|e elems IH]; intros Hall st; simpl; [reflexivity|].
  destruct (Hall e (list_elem_of_here _ _)) as [xpath Hx].
  rewrite (process_elem_absorb _ _ _ _ Hx).
  apply IH. intros e' He'. apply Hall. now apply list_elem_of_further.
Qed.

Lemma process_file_absorb st (file : input_file) :
  (forall root, file.2 = Some root -> distinct_objects root) ->
  process_file st file = Returned (foldl absorb st (visited_of_file file)).
Proof.
  destruct file as [filename [root|]]; simpl; intros Hwf;
    destruct (endswith (lower filename) ".xml"); simpl; try reflexivity.
  apply process_elems_absorb. intros e He.
  apply get_xpath_returns; auto.
Qed.

Lemma process_files_absorb files :
  parsed_trees files ->
  forall st,
    process_files st files = Returned (foldl absorb st (visited files)).
Proof.
  unfold visited.
  induction files as [|file files IH]; intros Hwf st; simpl; [reflexivity|].
  rewrite process_file_absorb, foldl_app.
  - apply IH. intros filename root Hin.
    apply (Hwf filename). now apply list_elem_of_further.
  - intros root Hroot. apply (Hwf file.1).
    rewrite <- Hroot, <- surjective_pairing. apply list_elem_of_here.
Qed.

(** The accumulators after a sequence of visits. *)
Lemma foldl_absorb_items (l : list (Element * Element)) :
  forall st,
    master_interactive_items (foldl absorb st l)
    = master_interactive_items st
      ++ (master_line
            <$> filter (fun p => key_of p ∉ master_interactive_set st)
                  (first_seen
                     (filter (fun p => classify_element p.2 = "Interactive") l))).
Proof.
  induction l as [|p l IH]; intros st; simpl.
  - now rewrite app_nil_r.
  - destruct (decide (classify_element p.2 = "Interactive")) as [Hc|Hc].
    + rewrite (filter_cons_True _ p l) by assumption. simpl first_seen.
      destruct (decide (key_of p ∉ master_interactive_set st)) as [Hk|Hk].
      * assert (Ha : absorb st p
                     = mkMaster ({[key_of p]} ∪ master_interactive_set st)
                                (master_interactive_items st ++ [master_line p])).
        { unfold absorb. now rewrite !decide_True by assumption. }
        rewrite Ha, IH. simpl.
        rewrite (filter_cons_True _ p) by assumption. simpl.
        rewrite <- app_assoc. simpl. do 3 f_equal.
        rewrite list_filter_filter. apply list_filter_iff.
        intros q. rewrite not_elem_of_union, not_elem_of_singleton. tauto.
      * assert (Ha : absorb st p = st).
        { unfold absorb.
          now rewrite decide_True, decide_False by assumption. }
        rewrite Ha, IH.
        rewrite (filter_cons_False _ p) by assumption. f_equal. f_equal.
        rewrite list_filter_filter. apply list_filter_iff.
        intros q. split; [|tauto]. intros Hq. split; [assumption|].
        intros Heq. apply Hk. now rewrite <- Heq.
    + assert (Ha : absorb st p = st).
      { unfold absorb. now rewrite decide_False by assumption. }
      rewrite Ha, IH.
      rewrite (filter_cons_False _ p l) by assumption. reflexivity.
Qed.

Lemma main_first_seen files :
  parsed_trees files ->
  main files = Returned (master_line <$> first_seen (interactive files)).
Proof.
  intros Hwf. unfold main. rewrite (process_files_absorb _ Hwf).
  rewrite foldl_absorb_items. simpl. do 2 f_equal.
  unfold interactive.
  induction (first_seen _) as [|q l IH]; [reflexivity|].
  rewrite filter_cons_True by apply not_elem_of_empty. now f_equal.
Qed.

(** *** first_seen *)

Lemma first_seen_key (l : list (Element * Element)) (k : unique_key) :
  filter (fun q => key_of q = k) (first_seen l)
  = take 1 (filter (fun q => key_of q = k) l).
Proof.
  induction l as [|p l IH]; simpl; [reflexivity|].
  destruct (decide (key_of p = k)) as [Hk|Hk].
  - rewrite !filter_cons_True by assumption. simpl. f_equal.
    rewrite list_filter_filter, take_0. clear IH.
    induction (first_seen l) as [|q l' IH']; [reflexivity|].
    rewrite filter_cons_False; [exact IH' | intros [? ?]; congruence].
  - rewrite !filter_cons_False by assumption. rewrite <- IH.
    apply list_filter_filter_l. congruence.
Qed.

Lemma first_seen_sublist (l : list (Element * Element)) :
  first_seen l `sublist_of` l.
Proof.
  induction l as [|p l IH]; simpl; [constructor|].
  apply sublist_skip. etransitivity; [apply sublist_filter | exact IH].
Qed.

Lemma NoDup_fmap_filter {A B} (f : A -> B) (P : A -> Prop)
    `{!forall x, Decision (P x)} (l : list A) :
  NoDup (f <$> l) -> NoDup (f <$> filter P l).
Proof.
  induction l as [|x l IH]; simpl; [trivial|].
  intros [Hx Hnd]%NoDup_cons. destruct (decide (P x)).
  - rewrite filter_cons_True by assumption. simpl.
    apply NoDup_cons. split; [|auto].
    intros (y & Hy & Hin)%list_elem_of_fmap. apply Hx. rewrite Hy.
    apply list_elem_of_fmap_2. now apply list_elem_of_filter in Hin as [_ ?].
  - rewrite filter_cons_False by assumption. auto.
Qed.

Lemma first_seen_NoDup (l : list (Element * Element)) :
  NoDup (key_of <$> first_seen l).
Proof.
  induction l as [|p l IH]; simpl; [constructor|].
  apply NoDup_cons. split.
  - intros (q & Hq & Hin)%list_elem_of_fmap.
    apply list_elem_of_filter in Hin as [Hne _]. congruence.
  - now apply NoDup_fmap_filter.
Qed.

Lemma first_seen_one (l : list (Element * Element)) (p : Element * Element) :
  p ∈ l -> length (filter (fun q => key_of q = key_of p) (first_seen l)) = 1.
Proof.
  intros Hp. rewrite first_seen_key.
  assert (Hin : p ∈ filter (fun q => key_of q = key_of p) l)
    by (apply list_elem_of_filter; auto).
  destruct (filter _ l) as [|x l']; [inversion Hin | reflexivity].
Qed.

Lemma unique_key_fields (e e' : Element) :
  tag e = tag e' ->
  (forall k : string,
     k ∈ ["name"; "label"; "value"; "x"; "y"; "width"; "height"] ->
     attrib e !! k = attrib e' !! k) ->
  create_unique_key e = create_unique_key e'.
Proof.
  intros Htag Hfields. unfold create_unique_key, dict_get_default.
  rewrite Htag.
  rewrite (Hfields "name"), (Hfields "label"), (Hfields "value"),
    (Hfields "x"), (Hfields "y"), (Hfields "width"), (Hfields "height")
    by (apply list_elem_of_In; simpl; tauto).
  reflexivity.
Qed.

(** C7: in a run over files whose trees are trees of distinct objects, the
    master catalog is made of the entries of the interactive elements that
    are the first with their key, in the order of the visits: it is a
    subsequence of the interactive elements visited, no key occurs twice in
    it, for every key it holds the first interactive element with that key
    and no other, and so two interactive elements with the same key, of one
    file or of two, leave one entry. Two elements with the same tag and the
    same [name], [label], [value], [x], [y], [width] and [height] have the
    same key. The run returns: an element whose key was seen is passed
    over. *)
Theorem master_catalog_first_seen (files : list input_file) :
  parsed_trees files ->
  main files = Returned (master_line <$> first_seen (interactive files))
  /\ (forall e e' : Element,
        tag e = tag e' ->
        (forall k : string,
           k ∈ ["name"; "label"; "value"; "x"; "y"; "width"; "height"] ->
           attrib e !! k = attrib e' !! k) ->
        create_unique_key e = create_unique_key e')
  /\ first_seen (interactive files) `sublist_of` interactive files
  /\ NoDup (key_of <$> first_seen (interactive files))
  /\ (forall k : unique_key,
        filter (fun q => key_of q = k) (first_seen (interactive files))
        = take 1 (filter (fun q => key_of q = k) (interactive files)))
  /\ (forall p q : Element * Element,
        p ∈ interactive files -> q ∈ interactive files ->
        key_of p = key_of q ->
        length (filter (fun r => key_of r = key_of p)
                  (first_seen (interactive files))) = 1
        /\ filter (fun r => key_of r = key_of q)
             (first_seen (interactive files))
           = filter (fun r => key_of r = key_of p)
               (first_seen (interactive files))).
Proof.
  intros Hwf.
  split; [apply main_first_seen, Hwf|].
  split; [apply unique_key_fields|].
  split; [apply first_seen_sublist|].
  split; [apply first_seen_NoDup|].
  split; [intros k; apply first_seen_key|].
  intros p q Hp Hq Hkey. split.
  - now apply first_seen_one.
  - now rewrite Hkey.
Qed.

Lemma master_catalog_first_seen_witness :
  main two_pages = Returned (master_line <$> first_seen (interactive two_pages))
  /\ length (first_seen (interactive two_pages)) = 1.
Proof.
  split; [|vm_compute; reflexivity].
  apply (master_catalog_first_seen two_pages).
  intros filename root Hin.
  apply list_elem_of_In in Hin. simpl in Hin.
  destruct Hin as [H|[H|[H|[]]]]; inversion H; subst;
    unfold distinct_objects; simpl; repeat constructor; set_solver.
Defined.

(** C10: the key reads an attribute that is not there as the empty string.
    When an element lacks one of [name], [label], [value], [x], [y],
    [width], [height] and another element is the same but for this
    attribute, which it has empty, the two have the same key and the same
    classification; when both are visited as interactive elements in a run,
    the master catalog holds one entry with that key. *)
Theorem unique_key_absent_as_empty (elem elem' : Element) (key : string) :
  key ∈ ["name"; "label"; "value"; "x"; "y"; "width"; "height"] ->
  attrib elem !! key = None ->
  tag elem' = tag elem ->
  attrib elem' = <[key := ""]> (attrib elem) ->
  create_unique_key elem' = create_unique_key elem
  /\ classify_element elem' = classify_element elem
  /\ forall (files : list input_file) (root root' : Element),
       parsed_trees files ->
       (root, elem) ∈ interactive files ->
       (root', elem') ∈ interactive files ->
       main files = Returned (master_line <$> first_seen (interactive files))
       /\ length (filter (fun q => key_of q = create_unique_key elem)
                    (first_seen (interactive files))) = 1.
Proof.
  intros Hkey Hnone Htag Hattrib.
  assert (Hget : forall k, dict_get_default (attrib elem') k ""
                           = dict_get_default (attrib elem) k "").
  { intros k. unfold dict_get_default. rewrite Hattrib.
    destruct (decide (key = k)) as [<-|Hne].
    - now rewrite lookup_insert_eq, Hnone.
    - now rewrite lookup_insert_ne. }
  split; [|split].
  - unfold create_unique_key. now rewrite Htag, !Hget.
  - rewrite !classify_element_cases, Htag, !Hget. unfold dict_in.
    rewrite Hattrib.
    apply list_elem_of_In in Hkey. simpl in Hkey.
    destruct Hkey as [<-|[<-|[<-|[<-|[<-|[<-|[<-|[]]]]]]]];
      rewrite !lookup_insert_ne by discriminate; reflexivity.
  - intros files root root' Hwf Hin Hin'.
    split; [apply main_first_seen, Hwf|].
    apply (first_seen_one _ (root, elem) Hin).
Qed.

Lemma unique_key_absent_as_empty_witness :
  create_unique_key
    (mkElement 1 "XCUIElementTypeButton"
       (<["x" := ""]> (<["name" := "Login"]> ∅)) [])
  = create_unique_key
      (mkElement 1 "XCUIElementTypeButton" (<["name" := "Login"]> ∅) []).
Proof.
  apply (unique_key_absent_as_empty
           (mkElement 1 "XCUIElementTypeButton" (<["name" := "Login"]> ∅) [])
           (mkElement 1 "XCUIElementTypeButton"
              (<["x" := ""]> (<["name" := "Login"]> ∅)) [])
           "x").
  - repeat constructor.
  - reflexivity.
  - reflexivity.
  - reflexivity.
Defined.

End CatalogProperties.

(** * Further properties of save_app_pages.py *)

Section FilteredTreeProperties.
Import SaveAppPages.

Lemma page_tree_ind (P : Element -> Prop) :
  (forall t a tx tl cs, Forall P cs -> P (mkElement t a tx tl cs)) ->
  forall e, P e.
Proof.
  intros Hnode. fix IH 1. intros [t a tx tl cs]. apply Hnode.
  induction cs as [|c cs IHcs]; constructor; [apply IH | exact IHcs].
Qed.

Lemma dict_del_no_key key d : dict_contains key (dict_del key d) = false.
Proof.
  induction d as [|[k v] d IH]; simpl; [reflexivity|].
  destruct (String.eqb k key) eqn:E; simpl; [exact IH|].
  rewrite E. exact IH.
Qed.

Lemma attrib_sim_del a : attrib_sim a (dict_del "value" a).
Proof.
  induction a as [|[k v] a IH]; simpl; [constructor|].
  destruct (String.eqb_spec k "value") as [->|Hk];
    [apply sim_value_l | apply sim_keep]; exact IH.
Qed.

Lemma remove_value_unfold t a tx tl cs :
  remove_value (mkElement t a tx tl cs)
  = mkElement t (dict_del "value" a) tx tl (map remove_value cs).
Proof. simpl. now rewrite remove_value_attrib. Qed.

Lemma dict_del_eq_sim a1 :
  forall a2, dict_del "value" a1 = dict_del "value" a2 -> attrib_sim a1 a2.
Proof.
  induction a1 as [|[k v] a1 IH1]; intros a2.
  - induction a2 as [|[k2 v2] a2 IH2]; simpl; intros H; [constructor|].
    destruct (String.eqb_spec k2 "value") as [->|Hk2]; [|discriminate H].
    apply sim_value_r, IH2, H.
  - simpl. destruct (String.eqb_spec k "value") as [->|Hk].
    + intros H. apply sim_value_l, IH1, H.
    + induction a2 as [|[k2 v2] a2 IH2]; simpl; intros H; [discriminate H|].
      destruct (String.eqb_spec k2 "value") as [->|Hk2].
      * apply sim_value_r, IH2, H.
      * injection H as -> -> H. apply sim_keep, IH1, H.
Qed.

Lemma remove_value_eq_sim t1 :
  forall t2, remove_value t1 = remove_value t2 -> tree_sim t1 t2.
Proof.
  induction t1 as [t a tx tl cs IH] using page_tree_ind.
  intros [t' a' tx' tl' cs']. rewrite !remove_value_unfold.
  intros H. injection H as -> Ha -> -> Hcs.
  constructor; [apply dict_del_eq_sim, Ha|].
  revert cs' Hcs. induction IH as [|c cs Hc _ IHcs]; intros [|c' cs'] Hcs;
    simpl in Hcs; try discriminate Hcs; [constructor|].
  injection Hcs as Hhd Htl. constructor; [apply Hc, Hhd | apply IHcs, Htl].
Qed.

(** X1: after [remove_value] no element of the tree has a [value]
    attribute; the tree is the one it was but for the [value] attributes;
    and removing again changes nothing. *)
Theorem remove_value_canonical (root : Element) :
  (forall e, e ∈ iter (remove_value root) ->
             dict_contains "value" (attrib e) = false)
  /\ tree_sim root (remove_value root)
  /\ remove_value (remove_value root) = remove_value root.
Proof.
  assert (Hsim : forall t, tree_sim t (remove_value t)).
  { induction t as [t a tx tl cs IH] using page_tree_ind.
    rewrite remove_value_unfold. constructor; [apply attrib_sim_del|].
    induction IH; simpl; constructor; assumption. }
  split; [|split].
  - induction root as [t a tx tl cs IH] using page_tree_ind.
    rewrite remove_value_unfold. simpl. intros e He.
    apply elem_of_cons in He as [->|He]; [apply dict_del_no_key|].
    apply elem_of_flat_map in He as (c' & Hc' & He).
    apply list_elem_of_In, in_map_iff in Hc' as (c & <- & Hc).
    rewrite Forall_forall in IH.
    apply (IH c); [now apply list_elem_of_In | exact He].
  - apply Hsim.
  - symmetry. apply remove_value_sim, Hsim.
Qed.

(** X2: two trees have the same filtered tree exactly when they are
    identical except for [value] attributes; so a difference in a tag, in a
    text, in the children or in any other attribute shows in the tree that
    is serialized and hashed. *)
Theorem remove_value_eq_iff (root1 root2 : Element) :
  remove_value root1 = remove_value root2 <-> tree_sim root1 root2.
Proof.
  split; [apply remove_value_eq_sim | apply remove_value_sim].
Qed.

End FilteredTreeProperties.

Section CaptureLoopProperties.
Import SaveAppPages.

Variable fromstring : string -> option Element.
Variable tostring : Element -> string.
Variable md5_hexdigest : string -> string.
Variable APP_BUNDLE_ID : string.

Notation hash := (compute_filtered_hash fromstring tostring md5_hexdigest).
Notation step :=
  (capture_step fromstring tostring md5_hexdigest APP_BUNDLE_ID).
Notation loop :=
  (capture_loop fromstring tostring md5_hexdigest APP_BUNDLE_ID).

Lemma capture_step_cases st app src :
  step st (app, src)
  = if String.eqb app APP_BUNDLE_ID then
      if decide (hash src ∉ saved_hashes st) then
        mkCapture ({[hash src]} ∪ saved_hashes st) (S (page_count st))
          (written st ++ [(page_filename (S (page_count st)), src)])
      else st
    else st.
Proof.
  unfold capture_step, capture_page, observe.
  destruct (String.eqb app APP_BUNDLE_ID); [|reflexivity].
  destruct (decide (hash src ∉ saved_hashes st)); reflexivity.
Qed.

Lemma capture_step_inv st p :
  page_count st = length (written st)
  /\ (written st).*1 = page_filename <$> seq 1 (page_count st)
  /\ saved_hashes st = list_to_set (hash <$> (written st).*2)
  /\ NoDup (hash <$> (written st).*2) ->
  page_count (step st p) = length (written (step st p))
  /\ (written (step st p)).*1 = page_filename <$> seq 1 (page_count (step st p))
  /\ saved_hashes (step st p) = list_to_set (hash <$> (written (step st p)).*2)
  /\ NoDup (hash <$> (written (step st p)).*2).
Proof.
  intros (Hcount & Hnames & Hsaved & Hnd). destruct p as [app src].
  rewrite capture_step_cases.
  destruct (String.eqb app APP_BUNDLE_ID); [|tauto].
  destruct (decide (hash src ∉ saved_hashes st)) as [Hnew|]; [|tauto].
  cbn [page_count written saved_hashes].
  rewrite !fmap_app, length_app, seq_S, fmap_app.
  cbn [fmap list_fmap fst snd length].
  split; [lia|]. split; [now rewrite Hnames|]. split.
  - rewrite list_to_set_app_L, <- Hsaved. simpl. set_solver.
  - apply NoDup_app. split; [exact Hnd|]. split; [|apply NoDup_singleton].
    intros h Hh ->%list_elem_of_singleton. apply Hnew.
    rewrite Hsaved. now apply elem_of_list_to_set.
Qed.

Lemma capture_foldl_inv polls :
  forall st,
    page_count st = length (written st)
    /\ (written st).*1 = page_filename <$> seq 1 (page_count st)
    /\ saved_hashes st = list_to_set (hash <$> (written st).*2)
    /\ NoDup (hash <$> (written st).*2) ->
    page_count (foldl step st polls) = length (written (foldl step st polls))
    /\ (written (foldl step st polls)).*1
       = page_filename <$> seq 1 (page_count (foldl step st polls))
    /\ saved_hashes (foldl step st polls)
       = list_to_set (hash <$> (written (foldl step st polls)).*2)
    /\ NoDup (hash <$> (written (foldl step st polls)).*2).
Proof.
  induction polls as [|p polls IH]; intros st Hinv; simpl; [exact Hinv|].
  apply IH, capture_step_inv, Hinv.
Qed.

Lemma capture_loop_inv polls :
  page_count (loop polls) = length (written (loop polls))
  /\ (written (loop polls)).*1 = page_filename <$> seq 1 (page_count (loop polls))
  /\ saved_hashes (loop polls) = list_to_set (hash <$> (written (loop polls)).*2)
  /\ NoDup (hash <$> (written (loop polls)).*2).
Proof.
  apply capture_foldl_inv. simpl.
  split; [reflexivity|]. split; [reflexivity|]. split; [reflexivity|].
  constructor.
Qed.

(** X3: after any number of polls the counter, the number of files written
    and the number of fingerprints in the store are the same number [n], and
    the files are named [page_1.xml] to [page_n.xml] in the order they were
    written. *)
Theorem capture_counts_agree (polls : list poll) :
  page_count (loop polls) = length (written (loop polls))
  /\ page_count (loop polls) = size (saved_hashes (loop polls))
  /\ (written (loop polls)).*1
     = page_filename <$> seq 1 (page_count (loop polls)).
Proof.
  destruct (capture_loop_inv polls) as (Hcount & Hnames & Hsaved & Hnd).
  split; [exact Hcount|]. split; [|exact Hnames].
  rewrite Hsaved, size_list_to_set by exact Hnd.
  now rewrite !length_fmap.
Qed.

Lemma length_append (s t : string) :
  String.length (s +:+ t) = String.length s + String.length t.
Proof.
  induction s as [|c s IH]; [reflexivity|].
  rewrite append_cons. simpl. now rewrite IH.
Qed.

Lemma append_cancel_r (s1 s2 t : string) : s1 +:+ t = s2 +:+ t -> s1 = s2.
Proof.
  revert s2. induction s1 as [|c1 s1 IH]; intros [|c2 s2] H.
  - reflexivity.
  - apply (f_equal String.length) in H.
    rewrite append_nil, append_cons in H. simpl in H.
    rewrite length_append in H. lia.
  - apply (f_equal String.length) in H.
    rewrite append_nil, append_cons in H. simpl in H.
    rewrite length_append in H. lia.
  - rewrite !append_cons in H. injection H as -> H. f_equal. now apply IH.
Qed.

Lemma page_filename_inj (n m : nat) : page_filename n = page_filename m -> n = m.
Proof.
  unfold page_filename. intros H.
  apply (String.app_inj "page_") in H.
  apply append_cancel_r in H. now apply pretty_nat_inj in H.
Qed.

(** X4: the files written have distinct names, distinct contents and
    distinct fingerprints: no file is written over another, and no
    fingerprint is saved twice. *)
Theorem capture_files_distinct (polls : list poll) :
  NoDup (written (loop polls)).*1
  /\ NoDup (written (loop polls)).*2
  /\ NoDup (hash <$> (written (loop polls)).*2).
Proof.
  destruct (capture_loop_inv polls) as (Hcount & Hnames & Hsaved & Hnd).
  split; [|split; [eapply NoDup_fmap_1, Hnd | exact Hnd]].
  rewrite Hnames. apply NoDup_fmap_2_strong; [|apply NoDup_seq].
  intros n m _ _. apply page_filename_inj.
Qed.

Lemma capture_step_trace st p :
  written st `prefix_of` written (step st p)
  /\ saved_hashes st ⊆ saved_hashes (step st p)
  /\ page_count st <= page_count (step st p)
  /\ (forall src, p = (APP_BUNDLE_ID, src) ->
                  hash src ∈ saved_hashes (step st p))
  /\ (forall f, f ∈ written (step st p) ->
                f ∈ written st \/ p = (APP_BUNDLE_ID, f.2)).
Proof.
  destruct p as [app src]. rewrite capture_step_cases.
  destruct (String.eqb_spec app APP_BUNDLE_ID) as [->|Happ].
  - destruct (decide (hash src ∉ saved_hashes st)) as [Hnew|Hold];
      cbn [page_count written saved_hashes].
    + split; [now apply prefix_app_r|]. split; [set_solver|].
      split; [lia|]. split.
      * intros src' [= <-]. set_solver.
      * intros f [Hf|Hf]%elem_of_app; [now left|].
        apply list_elem_of_singleton in Hf as ->. now right.
    + split; [reflexivity|]. split; [reflexivity|]. split; [lia|]. split.
      * intros src' [= <-]. now apply dec_stable.
      * intros f Hf. now left.
  - split; [reflexivity|]. split; [reflexivity|]. split; [lia|]. split.
    + intros src' [= Heq _]. contradiction.
    + intros f Hf. now left.
Qed.

Lemma capture_foldl_trace polls :
  forall st,
    written st `prefix_of` written (foldl step st polls)
    /\ saved_hashes st ⊆ saved_hashes (foldl step st polls)
    /\ page_count st <= page_count (foldl step st polls)
    /\ (forall src, (APP_BUNDLE_ID, src) ∈ polls ->
                    hash src ∈ saved_hashes (foldl step st polls))
    /\ (forall f, f ∈ written (foldl step st polls) ->
                  f ∈ written st \/ (APP_BUNDLE_ID, f.2) ∈ polls).
Proof.
  induction polls as [|p polls IH]; intros st; simpl.
  - split; [reflexivity|]. split; [reflexivity|]. split; [lia|]. split.
    + intros src Hin. inversion Hin.
    + intros f Hf. now left.
  - destruct (capture_step_trace st p) as (Hpre & Hsub & Hle & Hin & Hout).
    destruct (IH (step st p)) as (Hpre' & Hsub' & Hle' & Hin' & Hout').
    split; [etransitivity; eassumption|].
    split; [etransitivity; eassumption|].
    split; [lia|]. split.
    + intros src [Heq|Hsrc]%elem_of_cons.
      * apply Hsub'. now apply Hin.
      * now apply Hin'.
    + intros f Hf. destruct (Hout' f Hf) as [Hstep|Hlater].
      * destruct (Hout f Hstep) as [Hst|Hp]; [now left|].
        right. rewrite Hp. apply list_elem_of_here.
      * right. now apply list_elem_of_further.
Qed.

(** X5: every page source polled in the tracked application has its
    fingerprint in the store, and a file whose content has that fingerprint;
    and the content of every file is the raw text of one of those page
    sources. *)
Theorem capture_covers_polls (polls : list poll) :
  (forall src,
     (APP_BUNDLE_ID, src) ∈ polls ->
     hash src ∈ saved_hashes (loop polls)
     /\ exists name kept,
          (name, kept) ∈ written (loop polls) /\ hash kept = hash src)
  /\ (forall name kept,
        (name, kept) ∈ written (loop polls) ->
        (APP_BUNDLE_ID, kept) ∈ polls).
Proof.
  destruct (capture_foldl_trace polls capture_init)
    as (_ & _ & _ & Hin & Hout).
  destruct (capture_loop_inv polls) as (_ & _ & Hsaved & _).
  split.
  - intros src Hsrc. specialize (Hin src Hsrc). split; [exact Hin|].
    unfold capture_loop in Hsaved. rewrite Hsaved in Hin.
    apply elem_of_list_to_set, list_elem_of_fmap in Hin as (kept & Hk & Hin).
    apply list_elem_of_fmap in Hin as ([name kept'] & -> & Hin).
    exists name, kept'. split; [exact Hin | now symmetry].
  - intros name kept Hf. destruct (Hout _ Hf) as [Hinit|Hpoll].
    + inversion Hinit.
    + exact Hpoll.
Qed.

(** X6: further polls only add: the files written so far stay as they are,
    in their order, at the head of the files written later, the store keeps
    its fingerprints and the counter does not decrease. *)
Theorem capture_only_grows (polls more : list poll) :
  written (loop polls) `prefix_of` written (loop (polls ++ more))
  /\ saved_hashes (loop polls) ⊆ saved_hashes (loop (polls ++ more))
  /\ page_count (loop polls) <= page_count (loop (polls ++ more)).
Proof.
  unfold capture_loop. rewrite foldl_app.
  destruct (capture_foldl_trace more (foldl step capture_init polls))
    as (Hpre & Hsub & Hle & _).
  auto.
Qed.

Lemma capture_foldl_filter polls :
  forall st,
    foldl step st polls
    = foldl step st (filter (fun p => p.1 = APP_BUNDLE_ID) polls).
Proof.
  induction polls as [|[app src] polls IH]; intros st; [reflexivity|].
  destruct (decide (app = APP_BUNDLE_ID)) as [Happ|Happ].
  - rewrite filter_cons_True by exact Happ. simpl. apply IH.
  - rewrite filter_cons_False by exact Happ. simpl. rewrite <- IH.
    f_equal. apply String.eqb_neq in Happ. now rewrite Happ.
Qed.

(** X7: a poll made while another application is in front changes
    nothing: the loop ends in the state it would have without those
    polls. *)
Theorem capture_ignores_other_apps (polls : list poll) :
  loop polls = loop (filter (fun p => p.1 = APP_BUNDLE_ID) polls).
Proof. apply capture_foldl_filter. Qed.

(** X8: once a page source has been polled in the tracked application, a
    later poll of a page source whose tree differs from it in [value]
    attributes only writes no file and leaves the state as it is. *)
Theorem capture_skips_value_change (polls : list poll)
    (seen later : string) (root1 root2 : Element) :
  (APP_BUNDLE_ID, seen) ∈ polls ->
  fromstring seen = Some root1 ->
  fromstring later = Some root2 ->
  tree_sim root1 root2 ->
  loop (polls ++ [(APP_BUNDLE_ID, later)]) = loop polls.
Proof.
  intros Hseen H1 H2 Hsim.
  assert (Hhash : hash later = hash seen).
  { unfold compute_filtered_hash. rewrite H1, H2. cbn zeta.
    now rewrite (remove_value_sim _ _ Hsim). }
  destruct (capture_foldl_trace polls capture_init) as (_ & _ & _ & Hin & _).
  unfold capture_loop. rewrite foldl_app.
  change (step (foldl step capture_init polls) (APP_BUNDLE_ID, later)
          = foldl step capture_init polls).
  rewrite capture_step_cases, String.eqb_refl, Hhash.
  rewrite decide_False; [reflexivity|].
  intros Hnot. apply Hnot, Hin, Hseen.
Qed.

End CaptureLoopProperties.

Lemma capture_covers_polls_witness :
  exists name kept,
    (name, kept)
      ∈ SaveAppPages.written
          (SaveAppPages.capture_loop SaveAppPages.sample_fromstring
             SaveAppPages.sample_tostring SaveAppPages.sample_digest "app"
             [("app", "page with a"); ("other", "x"); ("app", "page with ab")])
    /\ SaveAppPages.compute_filtered_hash SaveAppPages.sample_fromstring
         SaveAppPages.sample_tostring SaveAppPages.sample_digest kept
       = SaveAppPages.compute_filtered_hash SaveAppPages.sample_fromstring
           SaveAppPages.sample_tostring SaveAppPages.sample_digest
           "page with ab".
Proof.
  apply (capture_covers_polls SaveAppPages.sample_fromstring
           SaveAppPages.sample_tostring SaveAppPages.sample_digest "app"
           [("app", "page with a"); ("other", "x"); ("app", "page with ab")]).
  repeat constructor.
Defined.

Lemma capture_skips_value_change_witness :
  SaveAppPages.capture_loop SaveAppPages.sample_fromstring
    SaveAppPages.sample_tostring SaveAppPages.sample_digest "app"
    ([("app", "page with a")] ++ [("app", "page with ab")])
  = SaveAppPages.capture_loop SaveAppPages.sample_fromstring
      SaveAppPages.sample_tostring SaveAppPages.sample_digest "app"
      [("app", "page with a")].
Proof.
  apply (capture_skips_value_change SaveAppPages.sample_fromstring
           SaveAppPages.sample_tostring SaveAppPages.sample_digest "app"
           [("app", "page with a")] "page with a" "page with ab"
           (SaveAppPages.sample_page "a") (SaveAppPages.sample_page "ab")).
  - repeat constructor.
  - reflexivity.
  - reflexivity.
  - unfold SaveAppPages.sample_page. constructor.
    + apply SaveAppPages.sim_keep, SaveAppPages.sim_nil.
    + repeat constructor.
Defined.

Lemma remove_value_canonical_witness :
  SaveAppPages.dict_contains "value"
    (SaveAppPages.attrib
       (SaveAppPages.mkElement "Field" [("name", "user")] None None []))
  = false.
Proof.
  apply (remove_value_canonical (SaveAppPages.sample_page "a")).
  apply list_elem_of_In. simpl. tauto.
Defined.

Lemma remove_value_eq_iff_witness :
  SaveAppPages.tree_sim (SaveAppPages.sample_page "a")
    (SaveAppPages.sample_page "ab").
Proof.
  apply (remove_value_eq_iff (SaveAppPages.sample_page "a")
           (SaveAppPages.sample_page "ab")).
  reflexivity.
Defined.

(** * Further properties of extract_paths.py *)

Section PathProperties.
Import ExtractPaths.

Lemma join_empty_cons (p : string) (l : list string) :
  join "" (p :: l) = p +:+ join "" l.
Proof.
  destruct l as [|q l]; simpl; [now rewrite append_empty | reflexivity].
Qed.

Lemma join_empty_app (l1 l2 : list string) :
  join "" (l1 ++ l2) = join "" l1 +:+ join "" l2.
Proof.
  induction l1 as [|p l1 IH]; [reflexivity|].
  rewrite <- app_comm_cons, !join_empty_cons, IH. now rewrite append_assoc.
Qed.

(** X9: in a tree of distinct objects [get_xpath] returns for every
    element, whatever its depth: [/tag] of the root for the root itself,
    and for the element at a position below the root the segments
    [/tag[k]] of the elements from the child of the root down to it, [k]
    being the 1-based rank among the siblings of the same tag. It never
    raises and never needs more turns than it is given. *)
Theorem get_xpath_of_position (root : Element) (path : list nat)
    (e : Element) :
  distinct_objects root ->
  descend root path = Some e ->
  get_xpath e root
  = Returned (match path with
              | [] => "/" +:+ tag root
              | _ :: _ => join "" (path_segments root path)
              end).
Proof. apply get_xpath_descend. Qed.

Lemma get_xpath_of_position_witness :
  get_xpath (mkElement 4 "Button" ∅ []) tree_deep
  = Returned "/Window[1]/Button[2]".
Proof.
  apply (get_xpath_of_position tree_deep [0; 2] (mkElement 4 "Button" ∅ [])).
  - unfold distinct_objects. simpl. repeat constructor; set_solver.
  - reflexivity.
Defined.

(** X10: the path of a child is the path of its parent followed by the
    segment of the child, except under the root, whose own path [/tag] is
    not carried over: there the path of the child is its segment alone. *)
Theorem get_xpath_extends_parent (root : Element) (path : list nat) (i : nat)
    (parent child : Element) :
  distinct_objects root ->
  descend root path = Some parent ->
  children parent !! i = Some child ->
  exists parent_path,
    get_xpath parent root = Returned parent_path
    /\ get_xpath child root
       = Returned ((match path with [] => "" | _ :: _ => parent_path end)
                   +:+ "/" +:+ tag child +:+ "["
                   +:+ pretty (sibling_rank parent i child) +:+ "]").
Proof.
  intros Hnd Hparent Hchild.
  assert (Hpos : descend root (path ++ [i]) = Some child)
    by (apply descend_snoc; eauto).
  rewrite (get_xpath_descend _ _ _ Hnd Hparent).
  rewrite (get_xpath_descend _ _ _ Hnd Hpos).
  eexists. split; [reflexivity|].
  rewrite (path_segments_snoc _ _ _ _ _ Hparent Hchild), join_empty_app.
  destruct path as [|k path]; reflexivity.
Qed.

Lemma get_xpath_extends_parent_witness :
  exists parent_path,
    get_xpath (mkElement 1 "Window" ∅
                 [mkElement 2 "Button" ∅ []; mkElement 3 "Other" ∅ [];
                  mkElement 4 "Button" ∅ []]) tree_deep
    = Returned parent_path
    /\ get_xpath (mkElement 4 "Button" ∅ []) tree_deep
       = Returned (parent_path +:+ "/" +:+ "Button" +:+ "["
                   +:+ pretty 2 +:+ "]").
Proof.
  apply (get_xpath_extends_parent tree_deep [0] 2
           (mkElement 1 "Window" ∅
              [mkElement 2 "Button" ∅ []; mkElement 3 "Other" ∅ [];
               mkElement 4 "Button" ∅ []])
           (mkElement 4 "Button" ∅ [])).
  - unfold distinct_objects. simpl. repeat constructor; set_solver.
  - reflexivity.
  - reflexivity.
Defined.

(** X11: what [find_parent] returns is an element of the tree that has the
    given element among its children; and in a tree of distinct objects it
    returns the parent of every element below the root, and nothing for
    the root. *)
Theorem find_parent_correct (root : Element) :
  (forall child p,
     find_parent root child = Some p ->
     p ∈ iter root /\ exists c, c ∈ children p /\ eid c = eid child)
  /\ (distinct_objects root ->
      find_parent root root = None
      /\ forall path i parent child,
           descend root path = Some parent ->
           children parent !! i = Some child ->
           find_parent root child = Some parent).
Proof.
  split.
  - intros child p Hfind. unfold find_parent in Hfind.
    apply find_some in Hfind as [Hin Hp]. split; [now apply list_elem_of_In|].
    apply is_child_of_spec in Hp as (j & c & Hj & Heq).
    exists c. split; [eapply list_elem_of_lookup_2, Hj | exact Heq].
  - intros Hnd. split.
    + destruct (find_parent root root) as [p|] eqn:Hfind; [exfalso|reflexivity].
      unfold find_parent in Hfind. apply find_some in Hfind as [Hin Hp].
      apply list_elem_of_In, in_descend in Hin as [px Hpx].
      apply is_child_of_spec in Hp as (j & c & Hj & Heq).
      assert (Hc : descend root (px ++ [j]) = Some c)
        by (apply descend_snoc; eauto).
      pose proof (descend_unique root (px ++ [j]) [] c root Hnd Hc eq_refl Heq)
        as Hpaths.
      destruct px; discriminate Hpaths.
    + intros path i parent child. now apply find_parent_descend.
Qed.

Lemma find_parent_correct_witness :
  find_parent tree_AAB tree_AAB = None
  /\ find_parent tree_AAB node_B = Some tree_AAB.
Proof.
  destruct (find_parent_correct tree_AAB) as [_ Htree].
  destruct Htree as [Hroot Hchild].
  - unfold distinct_objects. simpl. repeat constructor; set_solver.
  - split; [exact Hroot|]. apply (Hchild [] 2); reflexivity.
Defined.

End PathProperties.

Section SummaryProperties.
Import ExtractPaths.

Ltac strip_prefix H :=
  repeat (apply (inj (String.append _)) in H);
  rewrite ?append_cons, ?append_nil in H.

(** X12: the candidates of an element are pairwise distinct strings:
    whatever the tag and the attributes are, no locator is listed twice. *)
Theorem candidates_distinct (elem : Element) :
  NoDup (get_ios_class_chain_candidates elem).
Proof.
  rewrite candidates_unfold. cbv zeta.
  destruct (opt_truthy (attrib elem !! "name"));
    destruct (opt_truthy (attrib elem !! "label"));
    destruct (opt_truthy (attrib elem !! "value"));
    simpl; try destruct (bool_decide _); simpl;
    rewrite ?NoDup_cons, ?not_elem_of_cons;
    repeat split;
    try apply not_elem_of_nil; try apply NoDup_nil_2;
    intros H; strip_prefix H; discriminate H.
Qed.

Lemma opt_truthy_false (o : option string) :
  opt_truthy o = false <-> o = None \/ o = Some "".
Proof.
  destruct o as [[|c s]|]; simpl; split; try tauto; try discriminate.
  - intros [H|H]; discriminate H.
Qed.

(** X13: an element has no candidate exactly when each of [name], [label]
    and [value] is absent or empty; one non-empty attribute among the three
    is enough for a candidate. *)
Theorem candidates_nil_iff (elem : Element) :
  get_ios_class_chain_candidates elem = []
  <-> forall key : string,
        key ∈ ["name"; "label"; "value"] ->
        attrib elem !! key = None \/ attrib elem !! key = Some "".
Proof.
  rewrite candidates_unfold. cbv zeta. split.
  - intros Hnil key Hkey. apply opt_truthy_false.
    apply list_elem_of_In in Hkey. simpl in Hkey.
    destruct Hkey as [<-|[<-|[<-|[]]]];
      destruct (opt_truthy (attrib elem !! "name")) eqn:Hn;
      destruct (opt_truthy (attrib elem !! "label")) eqn:Hl;
      destruct (opt_truthy (attrib elem !! "value")) eqn:Hv;
      simpl in Hnil; try destruct (bool_decide _);
      try discriminate Hnil; reflexivity.
  - intros Hall.
    assert (Hfalse : forall key, key ∈ ["name"; "label"; "value"] ->
                                 opt_truthy (attrib elem !! key) = false)
      by (intros key Hkey; apply opt_truthy_false, Hall, Hkey).
    rewrite !Hfalse by (repeat constructor). reflexivity.
Qed.

Lemma candidates_nil_iff_witness :
  get_ios_class_chain_candidates
    (mkElement 0 "Btn" (<["name" := ""]> (<["x" := "4"]> ∅)) []) = [].
Proof.
  apply (candidates_nil_iff
           (mkElement 0 "Btn" (<["name" := ""]> (<["x" := "4"]> ∅)) [])).
  intros key Hkey. apply list_elem_of_In in Hkey. simpl in Hkey.
  destruct Hkey as [<-|[<-|[<-|[]]]]; [right | left | left]; reflexivity.
Defined.

(** X14: the position summary is empty exactly when none of [x], [y],
    [width] and [height] is there; an attribute that is there with an empty
    value is listed, so it makes the summary non-empty. *)
Theorem position_summary_empty_iff (elem : Element) :
  get_position_summary elem = ""
  <-> forall key : string,
        key ∈ ["x"; "y"; "width"; "height"] -> attrib elem !! key = None.
Proof.
  unfold get_position_summary, dict_get. split.
  - intros Hempty key Hkey.
    apply list_elem_of_In in Hkey. simpl in Hkey.
    destruct Hkey as [<-|[<-|[<-|[<-|[]]]]];
      destruct (attrib elem !! "x");
      destruct (attrib elem !! "y");
      destruct (attrib elem !! "width");
      destruct (attrib elem !! "height");
      simpl in Hempty; rewrite ?append_cons, ?append_nil in Hempty;
      try discriminate Hempty; reflexivity.
  - intros Hall.
    rewrite (Hall "x"), (Hall "y"), (Hall "width"), (Hall "height")
      by (apply list_elem_of_In; simpl; tauto).
    reflexivity.
Qed.

Lemma position_summary_empty_iff_witness :
  get_position_summary button_plain = "".
Proof.
  apply (position_summary_empty_iff button_plain).
  intros key Hkey. reflexivity.
Defined.

(** X15: the attribute summary is empty exactly when each of [name],
    [label], [value], [enabled] and [visible] is absent or empty: unlike
    the position summary, it passes over an attribute that is there with an
    empty value. *)
Theorem attributes_summary_empty_iff (elem : Element) :
  get_attributes_summary elem = ""
  <-> forall key : string,
        key ∈ ["name"; "label"; "value"; "enabled"; "visible"] ->
        attrib elem !! key = None \/ attrib elem !! key = Some "".
Proof.
  unfold get_attributes_summary, dict_get. split.
  - intros Hempty key Hkey. apply opt_truthy_false.
    apply list_elem_of_In in Hkey. simpl in Hkey, Hempty.
    destruct Hkey as [<-|[<-|[<-|[<-|[<-|[]]]]]];
      destruct (opt_truthy (attrib elem !! "name"));
      destruct (opt_truthy (attrib elem !! "label"));
      destruct (opt_truthy (attrib elem !! "value"));
      destruct (opt_truthy (attrib elem !! "enabled"));
      destruct (opt_truthy (attrib elem !! "visible"));
      simpl in Hempty; rewrite ?append_cons, ?append_nil in Hempty;
      try discriminate Hempty; reflexivity.
  - intros Hall.
    assert (Hfalse : forall key,
               key ∈ ["name"; "label"; "value"; "enabled"; "visible"] ->
               opt_truthy (attrib elem !! key) = false)
      by (intros key Hkey; apply opt_truthy_false, Hall, Hkey).
    simpl. rewrite !Hfalse by (apply list_elem_of_In; simpl; tauto).
    reflexivity.
Qed.

Lemma attributes_summary_empty_iff_witness :
  get_attributes_summary
    (mkElement 0 "Btn" (<["name" := ""]> (<["x" := "4"]> ∅)) []) = "".
Proof.
  apply (attributes_summary_empty_iff
           (mkElement 0 "Btn" (<["name" := ""]> (<["x" := "4"]> ∅)) [])).
  intros key Hkey. apply list_elem_of_In in Hkey. simpl in Hkey.
  destruct Hkey as [<-|[<-|[<-|[<-|[<-|[]]]]]];
    [right | left | left | left | left]; reflexivity.
Defined.

End SummaryProperties.

Section RunProperties.
Import ExtractPaths.

Lemma parsed_trees_app_l files more :
  parsed_trees (files ++ more) -> parsed_trees files.
Proof.
  intros Hwf filename root Hin. apply (Hwf filename).
  apply elem_of_app. now left.
Qed.

Lemma visited_app files more :
  visited (files ++ more) = visited files ++ visited more.
Proof. unfold visited. apply flat_map_app. Qed.

(** X16: files listed after others only add to the catalog: the entries
    of a run over the first files are, in their order, the first entries of
    the run over all the files. *)
Theorem main_extends (files more : list input_file) :
  parsed_trees (files ++ more) ->
  exists items extra,
    main files = Returned items
    /\ main (files ++ more) = Returned (items ++ extra).
Proof.
  intros Hwf. unfold main.
  rewrite (process_files_absorb _ (parsed_trees_app_l _ _ Hwf)).
  rewrite (process_files_absorb _ Hwf), visited_app, foldl_app.
  rewrite (foldl_absorb_items (visited more)).
  eexists _, _. split; reflexivity.
Qed.

Lemma main_extends_witness :
  exists items extra,
    main [("page_1.xml", Some page_one)] = Returned items
    /\ main ([("page_1.xml", Some page_one)]
              ++ [("broken.xml", None); ("page_2.XML", Some page_two)])
       = Returned (items ++ extra).
Proof.
  apply (main_extends [("page_1.xml", Some page_one)]
           [("broken.xml", None); ("page_2.XML", Some page_two)]).
  intros filename root Hin.
  apply list_elem_of_In in Hin. simpl in Hin.
  destruct Hin as [H|[H|[H|[]]]]; inversion H; subst;
    unfold distinct_objects; simpl; repeat constructor; set_solver.
Defined.

Lemma process_files_app files more :
  forall st,
    process_files st (files ++ more)
    = match process_files st files with
      | Returned st' => process_files st' more
      | Raised exn => Raised exn
      | OutOfFuel => OutOfFuel
      end.
Proof.
  induction files as [|file files IH]; intros st; simpl; [reflexivity|].
  destruct (process_file st file); auto.
Qed.

Lemma process_files_cons st file rest :
  process_files st (file :: rest)
  = match process_file st file with
    | Returned st' => process_files st' rest
    | Raised exn => Raised exn
    | OutOfFuel => OutOfFuel
    end.
Proof. reflexivity. Qed.

(** X17: a file that does not parse, and a file whose name does not end
    in [.xml] in any case of the letters, whatever is in it, leave the run
    as it is without them: same result, same catalog, and the files after
    them are still read. *)
Theorem main_skips_file (before after : list input_file)
    (filename : string) (parsed : option Element) :
  parsed = None \/ endswith (lower filename) ".xml" = false ->
  main (before ++ (filename, parsed) :: after) = main (before ++ after).
Proof.
  intros Hskip. unfold main. rewrite !process_files_app.
  destruct (process_files _ before) as [st| |]; try reflexivity.
  assert (Hfile : process_file st (filename, parsed) = Returned st).
  { unfold process_file.
    destruct Hskip as [-> | ->]; [|reflexivity].
    destruct (endswith (lower filename) ".xml"); reflexivity. }
  now rewrite process_files_cons, Hfile.
Qed.

Lemma main_skips_file_witness :
  main ([("page_1.xml", Some page_one)]
          ++ ("notes.txt", Some tree_AAB) :: [("page_2.XML", Some page_two)])
  = main ([("page_1.xml", Some page_one)] ++ [("page_2.XML", Some page_two)]).
Proof.
  apply (main_skips_file [("page_1.xml", Some page_one)]
           [("page_2.XML", Some page_two)] "notes.txt" (Some tree_AAB)).
  right. reflexivity.
Defined.

Lemma first_seen_keys (l : list (Element * Element)) (k : unique_key) :
  k ∈ key_of <$> first_seen l <-> k ∈ key_of <$> l.
Proof.
  assert (Hfilter : forall l' : list (Element * Element),
             k ∈ key_of <$> l' <-> filter (fun q => key_of q = k) l' <> []).
  { intros l'. split.
    - intros (q & -> & Hq)%list_elem_of_fmap Hnil.
      exact (filter_nil_not_elem_of _ _ q Hnil eq_refl Hq).
    - intros Hne. destruct (filter _ l') as [|q l''] eqn:E; [contradiction|].
      assert (Hq : q ∈ filter (fun q => key_of q = k) l')
        by (rewrite E; apply list_elem_of_here).
      apply list_elem_of_filter in Hq as [<- Hq].
      now apply list_elem_of_fmap_2. }
  rewrite !Hfilter, first_seen_key.
  destruct (filter _ l); simpl; split; congruence.
Qed.

Lemma first_seen_length (l : list (Element * Element)) :
  length (first_seen l) = size (list_to_set (key_of <$> l) : gset unique_key).
Proof.
  rewrite <- (length_fmap key_of (first_seen _)).
  rewrite <- (size_list_to_set (C := gset unique_key))
    by apply first_seen_NoDup.
  f_equal. apply set_eq. intros k.
  rewrite !elem_of_list_to_set. apply first_seen_keys.
Qed.

(** X18: the number of entries of the master catalog is the number of
    distinct keys among the interactive elements visited, not the number of
    those elements. *)
Theorem main_counts_keys (files : list input_file) :
  parsed_trees files ->
  exists items,
    main files = Returned items
    /\ length items
       = size (list_to_set (key_of <$> interactive files) : gset unique_key)
    /\ length items <= length (interactive files).
Proof.
  intros Hwf. rewrite (main_first_seen _ Hwf). eexists. split; [reflexivity|].
  rewrite length_fmap. split.
  - apply first_seen_length.
  - apply sublist_length, first_seen_sublist.
Qed.

Lemma main_counts_keys_witness :
  exists items,
    main two_pages = Returned items
    /\ length items
       = size (list_to_set (key_of <$> interactive two_pages) : gset unique_key)
    /\ length items <= length (interactive two_pages).
Proof.
  apply (main_counts_keys two_pages).
  intros filename root Hin.
  apply list_elem_of_In in Hin. simpl in Hin.
  destruct Hin as [H|[H|[H|[]]]]; inversion H; subst;
    unfold distinct_objects; simpl; repeat constructor; set_solver.
Defined.

Lemma interactive_keys (files : list input_file) (k : unique_key) :
  k ∈ key_of <$> interactive files
  <-> exists file p,
        file ∈ files /\ p ∈ visited_of_file file
        /\ classify_element p.2 = "Interactive" /\ key_of p = k.
Proof.
  unfold interactive, visited. split.
  - intros (p & -> & Hp)%list_elem_of_fmap.
    apply list_elem_of_filter in Hp as [Hc Hp].
    apply elem_of_flat_map in Hp as (file & Hfile & Hp).
    exists file, p. auto.
  - intros (file & p & Hfile & Hp & Hc & <-).
    apply list_elem_of_fmap_2, list_elem_of_filter. split; [exact Hc|].
    apply elem_of_flat_map. eauto.
Qed.

(** X22: the number of entries of the master catalog does not depend on
    the order in which the directory lists the files, nor on a file being
    listed more than once: two listings with the same files give catalogs
    of the same length. *)
Theorem main_count_order_free (files files' : list input_file) :
  (forall file, file ∈ files <-> file ∈ files') ->
  parsed_trees files ->
  exists items items',
    main files = Returned items
    /\ main files' = Returned items'
    /\ length items = length items'.
Proof.
  intros Hsame Hwf.
  assert (Hwf' : parsed_trees files').
  { intros filename root Hin. apply (Hwf filename). now apply Hsame. }
  rewrite (main_first_seen _ Hwf), (main_first_seen _ Hwf').
  eexists _, _. split; [reflexivity|]. split; [reflexivity|].
  rewrite !length_fmap, !first_seen_length. f_equal.
  apply set_eq. intros k. rewrite !elem_of_list_to_set, !interactive_keys.
  split; intros (file & p & Hfile & Hrest); exists file, p;
    (split; [now apply Hsame | exact Hrest]).
Qed.

Lemma main_count_order_free_witness :
  exists items items',
    main two_pages = Returned items
    /\ main (rev two_pages) = Returned items'
    /\ length items = length items'.
Proof.
  apply (main_count_order_free two_pages (rev two_pages)).
  - intros file. rewrite !list_elem_of_In. apply in_rev.
  - intros filename root Hin.
    apply list_elem_of_In in Hin. simpl in Hin.
    destruct Hin as [H|[H|[H|[]]]]; inversion H; subst;
      unfold distinct_objects; simpl; repeat constructor; set_solver.
Defined.

End RunProperties.

Section ReportProperties.
Import ExtractPaths.

Lemma report_blocks_shape root elems :
  (forall e, e ∈ elems -> exists xpath, get_xpath e root = Returned xpath) ->
  exists blocks,
    Forall2 (fun e block => element_block root e = Returned block) elems blocks
    /\ report_blocks root elems
       = Returned (flat_map (fun block => [block; string_repeat "-" 80]) blocks).
Proof.
  induction elems as [|e elems IH]; intros Hall.
  - exists []. split; [constructor | reflexivity].
  - destruct IH as (blocks & Hblocks & Hrest).
    { intros e' He'. apply Hall. now apply list_elem_of_further. }
    destruct (Hall e (list_elem_of_here _ _)) as [xpath Hx].
    assert (Hb : exists block, element_block root e = Returned block)
      by (unfold element_block; rewrite Hx; eauto).
    destruct Hb as [block Hb].
    exists (block :: blocks). split; [now constructor|].
    simpl. now rewrite Hb, Hrest.
Qed.

(** X19: for a tree of distinct objects the report of a file is built
    without an exception: after the header line it has, for each element in
    document order, the block of that element followed by a line of 80
    dashes, so [1 + 2 n] lines for [n] elements. *)
Theorem file_report_shape (filename : string) (root : Element) :
  distinct_objects root ->
  exists blocks,
    Forall2 (fun e block => element_block root e = Returned block)
      (iter root) blocks
    /\ file_report filename root
       = Returned (("=== Locators for " +:+ filename +:+ " ===" +:+ newline)
                     :: flat_map (fun block => [block; string_repeat "-" 80])
                          blocks)
    /\ (forall lines, file_report filename root = Returned lines ->
                      length lines = 1 + 2 * length (iter root)).
Proof.
  intros Hnd.
  destruct (report_blocks_shape root (iter root)) as (blocks & Hblocks & Hrep).
  { intros e He. now apply get_xpath_returns. }
  exists blocks. split; [exact Hblocks|].
  unfold file_report. rewrite Hrep. split; [reflexivity|].
  intros lines [= <-]. simpl. f_equal.
  rewrite (Forall2_length _ _ _ Hblocks).
  clear. induction blocks as [|b blocks IH]; simpl; [reflexivity|].
  rewrite IH. lia.
Qed.

Lemma file_report_shape_witness :
  exists blocks,
    Forall2 (fun e block => element_block tree_deep e = Returned block)
      (iter tree_deep) blocks
    /\ file_report "page.xml" tree_deep
       = Returned (("=== Locators for " +:+ "page.xml" +:+ " ===" +:+ newline)
                     :: flat_map (fun block => [block; string_repeat "-" 80])
                          blocks)
    /\ (forall lines, file_report "page.xml" tree_deep = Returned lines ->
                      length lines = 1 + 2 * length (iter tree_deep)).
Proof.
  apply (file_report_shape "page.xml" tree_deep).
  unfold distinct_objects. simpl. repeat constructor; set_solver.
Defined.

(** *** The filter on the file names *)

Lemma substring_all (s : string) : substring 0 (String.length s) s = s.
Proof. induction s as [|c s IH]; simpl; [reflexivity | now rewrite IH]. Qed.

Lemma substring_split (s : string) :
  forall k, k <= String.length s ->
    s = substring 0 k s +:+ substring k (String.length s - k) s.
Proof.
  induction s as [|c s IH]; intros [|k] Hk; simpl in *; try lia.
  - reflexivity.
  - now rewrite substring_all.
  - rewrite append_cons. f_equal. apply IH. lia.
Qed.

Lemma substring_skip (p s : string) (m : nat) :
  substring (String.length p) m (p +:+ s) = substring 0 m s.
Proof.
  induction p as [|c p IH]; [reflexivity|].
  rewrite append_cons. simpl. exact IH.
Qed.

Lemma lower_length (s : string) : String.length (lower s) = String.length s.
Proof. induction s as [|c s IH]; simpl; [reflexivity | now rewrite IH]. Qed.

Lemma lower_append (s t : string) : lower (s +:+ t) = lower s +:+ lower t.
Proof.
  induction s as [|c s IH]; [reflexivity|].
  rewrite append_cons. simpl. rewrite append_cons. now rewrite IH.
Qed.

Lemma lower_substring (s : string) :
  forall k m, substring k m (lower s) = lower (substring k m s).
Proof.
  induction s as [|c s IH]; intros [|k] [|m]; simpl; try reflexivity.
  - now rewrite IH.
  - apply IH.
  - apply IH.
Qed.

(** X20: [main] reads a file exactly when its name is a stem followed by
    an extension that is [.xml] up to the case of its letters; on any other
    name the file is passed over. *)
Theorem xml_filter_iff (filename : string) :
  endswith (lower filename) ".xml" = true
  <-> exists stem ext, filename = stem +:+ ext /\ lower ext = ".xml".
Proof.
  unfold endswith. rewrite lower_length, andb_true_iff, String.eqb_eq,
    lower_substring, Nat.leb_le.
  split.
  - intros [Hlen Hext].
    exists (substring 0 (String.length filename - 4) filename),
           (substring (String.length filename - 4) 4 filename).
    split; [|exact Hext].
    simpl in Hlen.
    rewrite (substring_split filename (String.length filename - 4)) at 1
      by lia.
    do 2 f_equal. simpl. lia.
  - intros (stem & ext & -> & Hext).
    assert (Hlen : String.length ext = 4).
    { rewrite <- lower_length, Hext. reflexivity. }
    rewrite length_append, Hlen. simpl String.length. split; [lia|].
    replace (String.length stem + 4 - 4) with (String.length stem) by lia.
    rewrite substring_skip, <- Hlen, substring_all. exact Hext.
Qed.

Lemma xml_filter_iff_witness : endswith (lower "Page_1.XmL") ".xml" = true.
Proof.
  apply (xml_filter_iff "Page_1.XmL").
  exists "Page_1", ".XmL". split; reflexivity.
Defined.

(** *** The key and the entry *)

Lemma default_truthy (o1 o2 : option string) :
  default "" o1 = default "" o2 ->
  opt_truthy o1 = opt_truthy o2
  /\ (opt_truthy o1 = true -> o1 = o2).
Proof.
  destruct o1 as [[|c1 s1]|], o2 as [[|c2 s2]|]; simpl; intros H;
    try discriminate H; split; try reflexivity; try discriminate;
    intros _; now f_equal.
Qed.

(** X21: the key decides the entry but for its path: two elements with
    the same key have the same candidates, and with the same path they would
    give the same entry of the master catalog; what a skipped duplicate
    could have added is its path only. *)
Theorem unique_key_decides_entry (e e' : Element) :
  create_unique_key e = create_unique_key e' ->
  get_ios_class_chain_candidates e = get_ios_class_chain_candidates e'
  /\ forall xpath : string,
       build_interactive_line e xpath (get_ios_class_chain_candidates e)
       = build_interactive_line e' xpath (get_ios_class_chain_candidates e').
Proof.
  unfold create_unique_key, dict_get_default.
  intros [= Htag Hname Hlabel Hvalue Hx Hy Hw Hh].
  assert (Hcands : get_ios_class_chain_candidates e
                   = get_ios_class_chain_candidates e').
  { rewrite !candidates_unfold. cbv zeta. rewrite Htag.
    destruct (default_truthy _ _ Hname) as [Hn Hn'].
    destruct (default_truthy _ _ Hlabel) as [Hl Hl'].
    destruct (default_truthy _ _ Hvalue) as [Hv Hv'].
    rewrite <- Hn, <- Hl, <- Hv.
    destruct (opt_truthy (attrib e !! "name"));
      destruct (opt_truthy (attrib e !! "label"));
      destruct (opt_truthy (attrib e !! "value"));
      rewrite <- ?Hn', <- ?Hl', <- ?Hv' by reflexivity; reflexivity. }
  split; [exact Hcands|].
  intros xpath. rewrite <- Hcands. unfold build_interactive_line, dict_get_default.
  now rewrite Htag, Hname, Hlabel, Hvalue, Hx, Hy, Hw, Hh.
Qed.

Lemma unique_key_decides_entry_witness :
  get_ios_class_chain_candidates
    (mkElement 1 "XCUIElementTypeButton" (<["name" := "Login"]> ∅) [])
  = get_ios_class_chain_candidates
      (mkElement 9 "XCUIElementTypeButton"
         (<["x" := ""]> (<["label" := ""]> (<["name" := "Login"]> ∅))) []).
Proof.
  apply (unique_key_decides_entry
           (mkElement 1 "XCUIElementTypeButton" (<["name" := "Login"]> ∅) [])
           (mkElement 9 "XCUIElementTypeButton"
              (<["x" := ""]> (<["label" := ""]> (<["name" := "Login"]> ∅))) [])).
  reflexivity.
Defined.

End ReportProperties.

Section SiblingProperties.
Import ExtractPaths.

Lemma sibling_count_lt (l : list Element) (t : string) :
  forall i j ci,
    l !! i = Some ci -> tag ci = t -> i < j ->
    length (filter (fun e => tag e = t) (take i l))
    < length (filter (fun e => tag e = t) (take j l)).
Proof.
  induction l as [|x l IH]; intros i j ci Hi Ht Hlt.
  - rewrite lookup_nil in Hi. discriminate.
  - destruct j as [|j]; [lia|]. destruct i as [|i]; simpl in Hi.
    + injection Hi as ->. simpl.
      rewrite filter_cons_True by exact Ht. simpl. lia.
    + simpl. destruct (decide (tag x = t)).
      * rewrite !filter_cons_True by assumption. simpl.
        apply -> Nat.succ_lt_mono. eapply IH; eauto; lia.
      * rewrite !filter_cons_False by assumption. eapply IH; eauto; lia.
Qed.

Lemma get_xpath_child root path i parent child :
  distinct_objects root ->
  descend root path = Some parent ->
  children parent !! i = Some child ->
  get_xpath child root
  = Returned (join "" (path_segments root path)
              +:+ "/" +:+ tag child +:+ "["
              +:+ pretty (sibling_rank parent i child) +:+ "]").
Proof.
  intros Hnd Hparent Hchild.
  assert (Hpos : descend root (path ++ [i]) = Some child)
    by (apply descend_snoc; eauto).
  rewrite (get_xpath_descend _ _ _ Hnd Hpos).
  rewrite (path_segments_snoc _ _ _ _ _ Hparent Hchild), join_empty_app.
  destruct path; reflexivity.
Qed.

(** X23: the index of a child is at least 1 and at most its position plus
    one; two children of one parent that have the same tag get increasing
    indices in document order, so they never get the same path. *)
Theorem sibling_paths_differ (root : Element) (path : list nat) (i j : nat)
    (parent ci cj : Element) :
  distinct_objects root ->
  descend root path = Some parent ->
  children parent !! i = Some ci ->
  children parent !! j = Some cj ->
  tag ci = tag cj ->
  i < j ->
  1 <= sibling_rank parent i ci <= i + 1
  /\ sibling_rank parent i ci < sibling_rank parent j cj
  /\ get_xpath ci root <> get_xpath cj root.
Proof.
  intros Hnd Hparent Hi Hj Htag Hlt.
  assert (Hrank : sibling_rank parent i ci < sibling_rank parent j cj).
  { unfold sibling_rank. rewrite <- Htag. apply -> Nat.succ_lt_mono.
    eapply sibling_count_lt; eauto. }
  split; [|split; [exact Hrank|]].
  - unfold sibling_rank. split; [lia|].
    pose proof (length_filter (fun e => tag e = tag ci)
                  (take i (children parent))) as Hf.
    rewrite length_take in Hf. lia.
  - rewrite (get_xpath_child _ _ _ _ _ Hnd Hparent Hi).
    rewrite (get_xpath_child _ _ _ _ _ Hnd Hparent Hj).
    rewrite Htag. intros [= H].
    repeat (apply (inj (String.append _)) in H).
    apply append_cancel_r, pretty_nat_inj in H. lia.
Qed.

Lemma sibling_paths_differ_witness :
  1 <= sibling_rank
         (mkElement 1 "Window" ∅
            [mkElement 2 "Button" ∅ []; mkElement 3 "Other" ∅ [];
             mkElement 4 "Button" ∅ []])
         0 (mkElement 2 "Button" ∅ []) <= 0 + 1
  /\ sibling_rank
       (mkElement 1 "Window" ∅
          [mkElement 2 "Button" ∅ []; mkElement 3 "Other" ∅ [];
           mkElement 4 "Button" ∅ []])
       0 (mkElement 2 "Button" ∅ [])
     < sibling_rank
         (mkElement 1 "Window" ∅
            [mkElement 2 "Button" ∅ []; mkElement 3 "Other" ∅ [];
             mkElement 4 "Button" ∅ []])
         2 (mkElement 4 "Button" ∅ [])
  /\ get_xpath (mkElement 2 "Button" ∅ []) tree_deep
     <> get_xpath (mkElement 4 "Button" ∅ []) tree_deep.
Proof.
  apply (sibling_paths_differ tree_deep [0] 0 2
           (mkElement 1 "Window" ∅
              [mkElement 2 "Button" ∅ []; mkElement 3 "Other" ∅ [];
               mkElement 4 "Button" ∅ []])
           (mkElement 2 "Button" ∅ []) (mkElement 4 "Button" ∅ [])).
  - unfold distinct_objects. simpl. repeat constructor; set_solver.
  - reflexivity.
  - reflexivity.
  - reflexivity.
  - reflexivity.
  - lia.
Defined.

End SiblingProperties.
